(** * Minesweeper and its knowledge-based player (minesweeper.py)

    A shallow embedding of the three classes of [minesweeper.py]:
    [Minesweeper] (the board), [Sentence] (a logical statement "exactly
    [count] of [cells] are mines") and [MinesweeperAI] (the inference
    engine), followed by the properties established about them.

    Conventions of the embedding.
    - Python integers are [Z]; a board cell is a pair [(i, j) : Z * Z].
    - A Python [set] of cells is a [gset (Z * Z)].  Iterating over a set
      visits [elements X]; Python leaves the order unspecified, and the
      lemmas below never depend on it.
    - The knowledge base is a Python list of [Sentence] objects, each
      created by the engine and referenced only from that list: it is a
      [list Sentence.t], and the in-place methods of [Sentence] become
      functions applied to every element.
    - [random.randrange n] and [random.choice] consume raw random numbers
      supplied by the caller of the model ([raw mod n]).
    - The [while] loops take fuel, one unit per pass; [None] means that the
      fuel ran out before the loop exited. *)

From stdpp Require Import gmap list fin_sets.
From Stdlib Require Import ZArith Lia.

Local Open Scope Z_scope.
#[local] Set Warnings "-clear-no-such-hyp".

Abbreviation cell := (Z * Z)%type.

(** [for c in X: acc = body c acc] for a Python set [X]. *)
Definition for_each {A : Type} (X : gset cell) (body : cell → A → A) (a : A) : A :=
  foldl (λ acc c, body c acc) a (elements X).

(** [range(n)] as a list of integers. *)
Definition range (n : Z) : list Z := seqZ 0 n.

(** [range(lo, hi)]. *)
Definition range2 (lo hi : Z) : list Z := seqZ lo (hi - lo).

(** What a Python statement can do in the model of the board: return a
    value, raise, or ask for more random numbers than the tape holds. *)
Inductive outcome (A : Type) : Type :=
  | Done (a : A)
  | Raised
  | Starved.
Arguments Done {A} a.
Arguments Raised {A}.
Arguments Starved {A}.

(** [l[i]] with Python's negative indices; [None] is an [IndexError]. *)
Definition getitem {A : Type} (l : list A) (i : Z) : option A :=
  if 0 <=? i then l !! Z.to_nat i
  else if 0 <=? Z.of_nat (length l) + i then l !! Z.to_nat (Z.of_nat (length l) + i)
  else None.

(** [random.randrange(n)]: a [ValueError] ([None]) for an empty range. *)
Definition randrange (raw n : Z) : option Z :=
  if 0 <? n then Some (raw `mod` n) else None.

(** ** class Minesweeper *)
Module Minesweeper.

Record t : Type := Game {
  height : Z;
  width : Z;
  mines : gset cell;
  board : list (list bool);
  mines_found : gset cell
}.

(** The field without mines that [__init__] builds first. *)
Definition empty_board (h w : Z) : list (list bool) :=
  map (λ _, map (λ _, false) (range w)) (range h).

(** [board[i][j]] *)
Definition get (b : list (list bool)) (i j : Z) : option bool :=
  getitem b i ≫= λ row, getitem row j.

(** [board[i][j] = True], for indices that [randrange] returned. *)
Definition set_true (b : list (list bool)) (i j : Z) : list (list bool) :=
  match b !! Z.to_nat i with
  | Some row => <[Z.to_nat i := <[Z.to_nat j := true]> row]> b
  | None => b
  end.

(** The loop [while len(self.mines) != mines]; [tape] holds the raw
    random numbers of the successive iterations. *)
Fixpoint place (h w target : Z) (tape : list (Z * Z))
    (ms : gset cell) (b : list (list bool)) : outcome (gset cell * list (list bool)) :=
  if Z.of_nat (size ms) =? target then Done (ms, b)
  else
    match tape with
    | [] => Starved
    | (ri, rj) :: tape =>
        match randrange ri h with
        | None => Raised
        | Some i =>
            match randrange rj w with
            | None => Raised
            | Some j =>
                match get b i j with
                | None => Raised
                | Some true => place h w target tape ms b
                | Some false =>
                    place h w target tape (ms ∪ {[(i, j)]}) (set_true b i j)
                end
            end
        end
    end.

(** [__init__] *)
Definition init (h w target : Z) (tape : list (Z * Z)) : outcome t :=
  match place h w target tape ∅ (empty_board h w) with
  | Done (ms, b) => Done (Game h w ms b ∅)
  | Raised => Raised
  | Starved => Starved
  end.

Definition is_mine (g : t) (c : cell) : option bool :=
  get (board g) c.1 c.2.

Definition nearby_mines (g : t) (c : cell) : Z :=
  foldl (λ count i,
    foldl (λ count j,
      if bool_decide ((i, j) = c) then count
      else if (0 <=? i) && (i <? height g) && (0 <=? j) && (j <? width g)
           then match get (board g) i j with
                | Some true => count + 1
                | _ => count
                end
           else count)
      count (range2 (c.2 - 1) (c.2 + 2)))
    0 (range2 (c.1 - 1) (c.1 + 2)).

Definition won (g : t) : bool :=
  bool_decide (mines_found g = mines g).

End Minesweeper.

(** ** class Sentence *)
Module Sentence.

Record t : Type := Sentence { cells : gset cell; count : Z }.

(** [__eq__]: same cells and same count. *)
Definition eqb (s o : t) : bool :=
  bool_decide (cells s = cells o) && (count s =? count o).

Definition known_mines (s : t) : gset cell :=
  if (Z.of_nat (size (cells s)) =? count s) && (0 <? count s)
  then cells s else ∅.

Definition known_safes (s : t) : gset cell :=
  if count s =? 0 then cells s else ∅.

Definition mark_mine (c : cell) (s : t) : t :=
  if bool_decide (c ∈ cells s)
  then Sentence (cells s ∖ {[c]}) (count s - 1)
  else s.

Definition mark_safe (c : cell) (s : t) : t :=
  if bool_decide (c ∈ cells s)
  then Sentence (cells s ∖ {[c]}) (count s)
  else s.

End Sentence.

(** ** class MinesweeperAI *)
Module MinesweeperAI.

Record t : Type := AI {
  height : Z;
  width : Z;
  moves_made : gset cell;
  mines : gset cell;
  safes : gset cell;
  knowledge : list Sentence.t
}.

(** [__init__] *)
Definition init (h w : Z) : t := AI h w ∅ ∅ ∅ [].

Definition set_knowledge (kb : list Sentence.t) (st : t) : t :=
  AI (height st) (width st) (moves_made st) (mines st) (safes st) kb.

Definition mark_mine (c : cell) (st : t) : t :=
  AI (height st) (width st) (moves_made st)
     (mines st ∪ {[c]}) (safes st)
     (map (Sentence.mark_mine c) (knowledge st)).

Definition mark_safe (c : cell) (st : t) : t :=
  AI (height st) (width st) (moves_made st)
     (mines st) (safes st ∪ {[c]})
     (map (Sentence.mark_safe c) (knowledge st)).

(** Step 2 of [add_knowledge]: the neighbours of [c] that lie on the
    board. *)
Definition neighbors (h w : Z) (c : cell) : gset cell :=
  foldl (λ acc di,
    foldl (λ acc dj,
      if (di =? 0) && (dj =? 0) then acc
      else
        let new_cell := (c.1 + di, c.2 + dj) in
        if (0 <=? new_cell.1) && (new_cell.1 <? h)
           && (0 <=? new_cell.2) && (new_cell.2 <? w)
        then acc ∪ {[new_cell]} else acc)
      acc [-1; 0; 1])
    ∅ [-1; 0; 1].

(** Steps 1 to 4 of [add_knowledge]: everything before the call of
    [update_knowledge].  The count is adjusted by summing over the
    neighbours that are left after the known safes and mines were
    taken out, as the source does. *)
Definition observe (c : cell) (count : Z) (st : t) : t :=
  let st1 :=
    mark_safe c (AI (height st) (width st) (moves_made st ∪ {[c]})
                    (mines st) (safes st) (knowledge st)) in
  let nbrs := neighbors (height st1) (width st1) c in
  let nbrs := nbrs ∖ safes st1 ∖ mines st1 in
  let count :=
    count - Z.of_nat (length (filter (λ n, n ∈ mines st1) (elements nbrs))) in
  if bool_decide (nbrs ≠ ∅)
  then set_knowledge (knowledge st1 ++ [Sentence.Sentence nbrs count]) st1
  else st1.

(** The first loop of a pass: the union of what every sentence knows. *)
Definition collect (kb : list Sentence.t) : gset cell * gset cell :=
  foldl (λ acc s, (acc.1 ∪ Sentence.known_safes s,
                   acc.2 ∪ Sentence.known_mines s)) (∅, ∅) kb.

Definition mark_new_safes (new_safes : gset cell) (sc : t * bool) : t * bool :=
  for_each new_safes
    (λ c sc, if bool_decide (c ∈ safes sc.1) then sc
             else (mark_safe c sc.1, true)) sc.

Definition mark_new_mines (new_mines : gset cell) (sc : t * bool) : t * bool :=
  for_each new_mines
    (λ c sc, if bool_decide (c ∈ mines sc.1) then sc
             else (mark_mine c sc.1, true)) sc.

(** [[s for s in self.knowledge if s.cells]] *)
Definition drop_empty (kb : list Sentence.t) : list Sentence.t :=
  filter (λ s, Sentence.cells s ≠ ∅) kb.

(** [s in l] on a list of sentences: some element is [==] to [s]. *)
Definition contains (l : list Sentence.t) (s : Sentence.t) : bool :=
  existsb (Sentence.eqb s) l.

(** The body of the two nested loops over the knowledge base. *)
Definition infer_step (kb : list Sentence.t) (sentence1 sentence2 : Sentence.t)
    (new_sentences : list Sentence.t) : list Sentence.t :=
  if Sentence.eqb sentence1 sentence2 then new_sentences
  else if bool_decide (Sentence.cells sentence2 ⊆ Sentence.cells sentence1) then
    let new_sentence :=
      Sentence.Sentence (Sentence.cells sentence1 ∖ Sentence.cells sentence2)
                        (Sentence.count sentence1 - Sentence.count sentence2) in
    if negb (contains kb new_sentence) && negb (contains new_sentences new_sentence)
    then if bool_decide (Sentence.cells new_sentence ≠ ∅)
         then new_sentences ++ [new_sentence] else new_sentences
    else new_sentences
  else new_sentences.

Definition infer (kb : list Sentence.t) : list Sentence.t :=
  foldl (λ new_sentences sentence1,
    foldl (λ new_sentences sentence2,
             infer_step kb sentence1 sentence2 new_sentences)
          new_sentences kb)
    [] kb.

(** The part of a pass that precedes the inference of new sentences:
    collect, mark, and remove the empty sentences. *)
Definition settle (st : t) : t * bool :=
  let '(new_safes, new_mines) := collect (knowledge st) in
  let sc := mark_new_safes new_safes (st, false) in
  let sc := mark_new_mines new_mines sc in
  (set_knowledge (drop_empty (knowledge sc.1)) sc.1, sc.2).

(** One pass of the [while] loop of [update_knowledge]: the new state and
    the value of [something_changed] at the end of the body. *)
Definition pass (st : t) : t * bool :=
  let sc := settle st in
  let new_sentences := infer (knowledge sc.1) in
  match new_sentences with
  | [] => sc
  | _ :: _ => (set_knowledge (knowledge sc.1 ++ new_sentences) sc.1, true)
  end.

Fixpoint update_knowledge (fuel : nat) (st : t) : option t :=
  match fuel with
  | O => None
  | S fuel =>
      let sc := pass st in
      if sc.2 then update_knowledge fuel sc.1 else Some sc.1
  end.

Definition add_knowledge (fuel : nat) (c : cell) (count : Z) (st : t) : option t :=
  update_knowledge fuel (observe c count st).

(** [make_safe_move]: the first safe cell, in the iteration order of the
    set, that was not played. *)
Definition make_safe_move (st : t) : option cell :=
  List.find (λ c, bool_decide (c ∉ moves_made st)) (elements (safes st)).

(** The list [choices] that [make_random_move] builds. *)
Definition choices (st : t) : list cell :=
  i ← range (height st);
  j ← range (width st);
  if bool_decide ((i, j) ∉ moves_made st) && bool_decide ((i, j) ∉ mines st)
  then [(i, j)] else [].

(** [random.choice(seq)] picks [seq[k]] for a [k] drawn uniformly below
    [len(seq)]; [raw] is the random number the draw is reduced from. *)
Definition random_choice {A : Type} (raw : nat) (l : list A) : option A :=
  l !! (raw `mod` length l)%nat.

Definition make_random_move (raw : nat) (st : t) : option cell :=
  match choices st with
  | [] => None
  | _ :: _ => random_choice raw (choices st)
  end.

End MinesweeperAI.

(** * Vocabulary of the properties *)

Import MinesweeperAI.

(** The undetermined neighbours of [c]: its neighbours on the board that
    are neither known safe nor known mines. *)
Definition undetermined (c : cell) (st : t) : gset cell :=
  neighbors (height st) (width st) c ∖ safes st ∖ mines st.

(** The sentence that the inner loop derives from [A] and a [B] whose
    cells are among those of [A]. *)
Definition resolvent (A B : Sentence.t) : Sentence.t :=
  Sentence.Sentence (Sentence.cells A ∖ Sentence.cells B)
                    (Sentence.count A - Sentence.count B).

(** A pair of sentences from which the loop derives something. *)
Definition resolvable (A B : Sentence.t) : Prop :=
  A ≠ B ∧ Sentence.cells B ⊆ Sentence.cells A
  ∧ Sentence.cells A ∖ Sentence.cells B ≠ ∅.

(** No sentence mentions a cell that is known safe or known to be a mine. *)
Definition apart (st : t) : Prop :=
  ∀ s, s ∈ knowledge st →
       Sentence.cells s ## safes st ∧ Sentence.cells s ## mines st.

(** One call of a public method of [MinesweeperAI] that changes the
    state, for a call that returns. *)
Inductive step : t → t → Prop :=
  | step_mark_mine c st : step st (mark_mine c st)
  | step_mark_safe c st : step st (mark_safe c st)
  | step_add_knowledge fuel c count st st' :
      add_knowledge fuel c count st = Some st' → step st st'
  | step_update_knowledge fuel st st' :
      update_knowledge fuel st = Some st' → step st st'.

(** The states of an engine created for an [h] by [w] board. *)
Definition reachable (h w : Z) (st : t) : Prop := rtc step (init h w) st.

(** The three sets of [st'] include those of [st]. *)
Definition grows (st st' : t) : Prop :=
  moves_made st ⊆ moves_made st' ∧ safes st ⊆ safes st' ∧ mines st ⊆ mines st'.

(** Every move that was made is recorded as a safe cell. *)
Definition played_safe (st : t) : Prop := moves_made st ⊆ safes st.

(** A sentence fits the layout [M] when its count is the number of its
    cells that are mines of [M]. *)
Definition fits (M : gset cell) (s : Sentence.t) : Prop :=
  Sentence.count s = Z.of_nat (size (Sentence.cells s ∩ M)).

(** A state is consistent with the layout [M]: the known mines are mines
    of [M], the known safe cells are not, and every sentence fits [M]. *)
Definition consistent (M : gset cell) (st : t) : Prop :=
  mines st ⊆ M ∧ safes st ## M ∧ ∀ s, s ∈ knowledge st → fits M s.

(** All sentences speak about cells of [U]. *)
Definition bounded (U : gset cell) (st : t) : Prop :=
  ∀ s, s ∈ knowledge st → Sentence.cells s ⊆ U.

(** The cells mentioned by the knowledge base. *)
Definition universe (st : t) : gset cell :=
  ⋃ map Sentence.cells (knowledge st).

(** How many cells of [U] are not yet known safe, plus how many are not yet
    known mines. *)
Definition unknowns (U : gset cell) (st : t) : nat :=
  (size (U ∖ safes st) + size (U ∖ mines st))%nat.

(** All subsets of the cells of a list, and of a set. *)
Fixpoint subsets (l : list cell) : list (gset cell) :=
  match l with
  | [] => [∅]
  | x :: l => subsets l ++ map (λ X, {[x]} ∪ X) (subsets l)
  end.

Definition powerset (U : gset cell) : gset (gset cell) :=
  list_to_set (subsets (elements U)).

(** The non-empty cell sets that occur in the knowledge base. *)
Definition shapes (st : t) : gset (gset cell) :=
  list_to_set (map Sentence.cells (knowledge st)) ∖ {[∅]}.

(** How many subsets of [U] do not occur in the knowledge base. *)
Definition missing (U : gset cell) (st : t) : nat :=
  size (powerset U ∖ shapes st).

(** Two sentences about the same two cells with counts 1 and 4, and one
    about the first cell with count 2, on a 1 by 2 board. *)
Definition looping_state : t :=
  AI 1 2 ∅ ∅ ∅ [Sentence.Sentence {[(0, 0); (0, 1)]} 1;
                Sentence.Sentence {[(0, 0); (0, 1)]} 4;
                Sentence.Sentence {[(0, 0)]} 2].

(** The sentences about one cell in the passes from [looping_state]. *)
Definition single (s : Sentence.t) : Prop :=
  (Sentence.cells s = {[(0, 0)]} ∨ Sentence.cells s = {[(0, 1)]})
  ∧ Sentence.count s `mod` 3 = 2.

(** The sentences about both cells in the passes from [looping_state]. *)
Definition double (s : Sentence.t) : Prop :=
  Sentence.cells s = {[(0, 0); (0, 1)]} ∧ Sentence.count s `mod` 3 = 1.

(** The invariant of the passes from [looping_state]. *)
Definition looping (st : t) : Prop :=
  Sentence.Sentence {[(0, 0); (0, 1)]} 1 ∈ knowledge st
  ∧ Sentence.Sentence {[(0, 0); (0, 1)]} 4 ∈ knowledge st
  ∧ (∃ s, s ∈ knowledge st ∧ single s)
  ∧ ∀ s, s ∈ knowledge st → single s ∨ double s.

(** The cells that [make_random_move] may pick: on the board, not played,
    not known to be mines. *)
Definition eligible (st : t) (c : cell) : Prop :=
  0 ≤ c.1 < height st ∧ 0 ≤ c.2 < width st
  ∧ (c ∉ moves_made st) ∧ (c ∉ mines st).

(** The cells of an [h] by [w] board. *)
Definition grid (h w : Z) : gset cell :=
  list_to_set (i ← range h; j ← range w; [(i, j)]).

(** The mines are on the board and the field is [True] exactly at the
    mines. *)
Definition board_ok (h w : Z) (ms : gset cell) (b : list (list bool)) : Prop :=
  (∀ c, c ∈ ms → 0 ≤ c.1 < h ∧ 0 ≤ c.2 < w)
  ∧ ∀ i j, 0 ≤ i < h → 0 ≤ j < w →
           Minesweeper.get b i j = Some (bool_decide ((i, j) ∈ ms)).

(** What marking all the cells of [D] as safe does to a sentence. *)
Definition strike_safes (D : gset cell) (s : Sentence.t) : Sentence.t :=
  Sentence.Sentence (Sentence.cells s ∖ D) (Sentence.count s).

(** What marking all the cells of [D] as mines does to a sentence. *)
Definition strike_mines (D : gset cell) (s : Sentence.t) : Sentence.t :=
  Sentence.Sentence (Sentence.cells s ∖ D)
                    (Sentence.count s - Z.of_nat (size (Sentence.cells s ∩ D))).

(** The body of the loop over the new safe cells, and of the loop over the
    new mines. *)
Definition mark_if_new_safe (sc : t * bool) (c : cell) : t * bool :=
  if bool_decide (c ∈ safes sc.1) then sc else (mark_safe c sc.1, true).

Definition mark_if_new_mine (sc : t * bool) (c : cell) : t * bool :=
  if bool_decide (c ∈ mines sc.1) then sc else (mark_mine c sc.1, true).

(** The board has [h] rows of [w] entries. *)
Definition board_shape (h w : Z) (b : list (list bool)) : Prop :=
  length b = Z.to_nat h ∧ Forall (λ row, length row = Z.to_nat w) b.

(** The three rows and three columns around a cell, as [nearby_mines]
    visits them. *)
Definition block (c : cell) : list cell :=
  i ← range2 (c.1 - 1) (c.1 + 2); j ← range2 (c.2 - 1) (c.2 + 2); [(i, j)].

(** Whether [nearby_mines] counts the cell [(i, j)] around [c]. *)
Definition counted (g : Minesweeper.t) (c : cell) (i j : Z) : bool :=
  negb (bool_decide ((i, j) = c))
  && ((0 <=? i) && (i <? Minesweeper.height g)
      && (0 <=? j) && (j <? Minesweeper.width g))
  && match Minesweeper.get (Minesweeper.board g) i j with
     | Some true => true
     | _ => false
     end.

(** A state on which a pass changes nothing. *)
Definition saturated (st : t) : Prop := pass st = (st, false).

(** * Properties *)

(** ** Loops over sets and lists *)

(** An invariant of the loop body is an invariant of the loop, whatever
    the order in which the set is visited. *)
Lemma for_each_ind {A : Type} (P : A → Prop) (X : gset cell) body (a : A) :
  P a →
  (∀ c acc, c ∈ X → P acc → P (body c acc)) →
  P (for_each X body a).
Proof.
  intros Ha Hstep. unfold for_each.
  assert (Hin : ∀ c, c ∈ elements X → c ∈ X) by (intros c; apply elem_of_elements).
  revert a Ha Hin. induction (elements X) as [|c l IH]; intros a Ha Hin; simpl.
  - exact Ha.
  - apply IH.
    + apply Hstep; [apply Hin; left | exact Ha].
    + intros c' Hc'. apply Hin. by right.
Qed.

(** ** Sentences *)

Lemma sentence_eta (s : Sentence.t) :
  Sentence.Sentence (Sentence.cells s) (Sentence.count s) = s.
Proof. by destruct s. Qed.

Lemma sentence_eqb_eq (s o : Sentence.t) : Sentence.eqb s o = true ↔ s = o.
Proof.
  unfold Sentence.eqb. rewrite andb_true_iff, bool_decide_eq_true, Z.eqb_eq.
  destruct s, o; simpl. split.
  - intros [-> ->]. reflexivity.
  - intros [= -> ->]. done.
Qed.

Lemma sentence_eqb_neq (s o : Sentence.t) : Sentence.eqb s o = false ↔ s ≠ o.
Proof.
  rewrite <- sentence_eqb_eq. destruct (Sentence.eqb s o); split; congruence.
Qed.

Lemma contains_elem_of (l : list Sentence.t) (s : Sentence.t) :
  contains l s = true ↔ s ∈ l.
Proof.
  unfold contains. rewrite existsb_exists. split.
  - intros (x & Hx & Heq). apply sentence_eqb_eq in Heq. subst.
    by apply list_elem_of_In.
  - intros Hs. exists s. split; [by apply list_elem_of_In | by apply sentence_eqb_eq].
Qed.

Lemma contains_not_elem_of (l : list Sentence.t) (s : Sentence.t) :
  contains l s = false ↔ s ∉ l.
Proof.
  rewrite <- contains_elem_of. destruct (contains l s); split; congruence.
Qed.

Lemma mark_safe_cells (c : cell) (s : Sentence.t) :
  Sentence.cells (Sentence.mark_safe c s) = Sentence.cells s ∖ {[c]}.
Proof.
  unfold Sentence.mark_safe. case_bool_decide as Hc; simpl; [done|].
  apply set_eq. intros x. rewrite elem_of_difference, elem_of_singleton.
  naive_solver.
Qed.

Lemma mark_safe_count (c : cell) (s : Sentence.t) :
  Sentence.count (Sentence.mark_safe c s) = Sentence.count s.
Proof. unfold Sentence.mark_safe. by case_bool_decide. Qed.

Lemma mark_mine_cells (c : cell) (s : Sentence.t) :
  Sentence.cells (Sentence.mark_mine c s) = Sentence.cells s ∖ {[c]}.
Proof.
  unfold Sentence.mark_mine. case_bool_decide as Hc; simpl; [done|].
  apply set_eq. intros x. rewrite elem_of_difference, elem_of_singleton.
  naive_solver.
Qed.

Lemma mark_mine_count (c : cell) (s : Sentence.t) :
  Sentence.count (Sentence.mark_mine c s) =
  Sentence.count s - (if bool_decide (c ∈ Sentence.cells s) then 1 else 0).
Proof. unfold Sentence.mark_mine. case_bool_decide; simpl; lia. Qed.

Lemma known_safes_subseteq (s : Sentence.t) :
  Sentence.known_safes s ⊆ Sentence.cells s.
Proof. unfold Sentence.known_safes. destruct (_ =? _); set_solver. Qed.

Lemma known_mines_subseteq (s : Sentence.t) :
  Sentence.known_mines s ⊆ Sentence.cells s.
Proof. unfold Sentence.known_mines. destruct (_ && _); set_solver. Qed.

(** C6. Certainty extraction: [known_safes] is the whole cell set when the
    count is 0 and the empty set otherwise; [known_mines] is the whole
    cell set when the number of cells equals the count and the count is
    positive, and the empty set otherwise. *)
Theorem certainty_extraction (s : Sentence.t) :
  Sentence.known_safes s =
    (if decide (Sentence.count s = 0) then Sentence.cells s else ∅)
  ∧ Sentence.known_mines s =
    (if decide (Z.of_nat (size (Sentence.cells s)) = Sentence.count s
                ∧ Sentence.count s > 0)
     then Sentence.cells s else ∅).
Proof.
  split.
  - unfold Sentence.known_safes.
    destruct (Z.eqb_spec (Sentence.count s) 0); case_decide; done.
  - unfold Sentence.known_mines.
    destruct (Z.eqb_spec (Z.of_nat (size (Sentence.cells s))) (Sentence.count s));
      destruct (Z.ltb_spec 0 (Sentence.count s)); simpl;
      case_decide; try done; lia.
Qed.

(** ** Recording an observation *)

Lemma elem_of_neighbors_row (h w : Z) (c : cell) (di : Z) (l : list Z)
    (acc : gset cell) (x : cell) :
  x ∈ foldl (λ acc dj,
        if (di =? 0) && (dj =? 0) then acc
        else
          let new_cell := (c.1 + di, c.2 + dj) in
          if (0 <=? new_cell.1) && (new_cell.1 <? h)
             && (0 <=? new_cell.2) && (new_cell.2 <? w)
          then acc ∪ {[new_cell]} else acc) acc l
  ↔ x ∈ acc ∨ ∃ dj, dj ∈ l ∧ ¬ (di = 0 ∧ dj = 0) ∧ x = (c.1 + di, c.2 + dj)
                ∧ 0 ≤ x.1 < h ∧ 0 ≤ x.2 < w.
Proof.
  revert acc. induction l as [|dj l IH]; intros acc; simpl.
  - split; [by left | intros [?|(dj & Hdj & _)]; [done | by inversion Hdj]].
  - rewrite IH. clear IH. split.
    + intros [Hx | (dj' & Hdj' & Hrest)].
      * destruct ((di =? 0) && (dj =? 0)) eqn:Hz; [by left|].
        simpl in Hx.
        destruct ((0 <=? c.1 + di) && (c.1 + di <? h)
                  && (0 <=? c.2 + dj) && (c.2 + dj <? w)) eqn:Hb; [|by left].
        apply elem_of_union in Hx as [Hx | Hx]; [by left|].
        apply elem_of_singleton in Hx. right. exists dj.
        split; [left|]. subst x. simpl.
        repeat (apply andb_true_iff in Hb as [Hb ?]).
        apply andb_false_iff in Hz.
        split; [|split; [done|lia]].
        intros [-> ->]. destruct Hz; discriminate.
      * right. exists dj'. split; [by right | done].
    + intros [Hx | (dj' & Hdj' & Hnz & Hx & Hb1 & Hb2)].
      * left. destruct ((di =? 0) && (dj =? 0)); [done|]. simpl.
        destruct (_ && _); [|done]. apply elem_of_union. by left.
      * apply elem_of_cons in Hdj' as [-> | Hdj'].
        -- left. subst x. simpl in Hb1, Hb2.
           assert ((di =? 0) && (dj =? 0) = false) as ->.
           { apply andb_false_iff.
             destruct (Z.eqb_spec di 0); [|by left].
             destruct (Z.eqb_spec dj 0); [|by right]. tauto. }
           simpl.
           assert ((0 <=? c.1 + di) && (c.1 + di <? h)
                   && (0 <=? c.2 + dj) && (c.2 + dj <? w) = true) as ->.
           { repeat (apply andb_true_iff; split); lia. }
           apply elem_of_union. right. by apply elem_of_singleton.
        -- right. exists dj'. done.
Qed.

Lemma elem_of_neighbors_rows (h w : Z) (c : cell) (ls l : list Z)
    (acc : gset cell) (x : cell) :
  x ∈ foldl (λ acc di,
      foldl (λ acc dj,
        if (di =? 0) && (dj =? 0) then acc
        else
          let new_cell := (c.1 + di, c.2 + dj) in
          if (0 <=? new_cell.1) && (new_cell.1 <? h)
             && (0 <=? new_cell.2) && (new_cell.2 <? w)
          then acc ∪ {[new_cell]} else acc) acc l) acc ls
  ↔ x ∈ acc ∨ ∃ di dj, di ∈ ls ∧ dj ∈ l ∧ ¬ (di = 0 ∧ dj = 0)
                ∧ x = (c.1 + di, c.2 + dj) ∧ 0 ≤ x.1 < h ∧ 0 ≤ x.2 < w.
Proof.
  revert acc. induction ls as [|di ls IH]; intros acc; cbn [foldl].
  - split; [by left | intros [?|(di & dj & Hdi & _)]; [done | by inversion Hdi]].
  - rewrite IH, elem_of_neighbors_row. clear IH. split.
    + intros [[Hx | (dj & Hdj & Hrest)] | (di' & dj & Hdi' & Hrest)].
      * by left.
      * right. exists di, dj. split; [left | done].
      * right. exists di', dj. split; [by right | done].
    + intros [Hx | (di' & dj & Hdi' & Hdj & Hrest)].
      * left. by left.
      * apply elem_of_cons in Hdi' as [-> | Hdi'].
        -- left. right. by exists dj.
        -- right. by exists di', dj.
Qed.

(** The neighbours computed by [add_knowledge] are the cells of the board
    at distance one from [c]. *)
Lemma elem_of_neighbors (h w : Z) (c x : cell) :
  x ∈ neighbors h w c ↔
    x ≠ c ∧ c.1 - 1 ≤ x.1 ≤ c.1 + 1 ∧ c.2 - 1 ≤ x.2 ≤ c.2 + 1
    ∧ 0 ≤ x.1 < h ∧ 0 ≤ x.2 < w.
Proof.
  unfold neighbors. rewrite elem_of_neighbors_rows.
  assert (Hoff : ∀ d : Z, d ∈ [-1; 0; 1] ↔ -1 ≤ d ≤ 1).
  { intros d. rewrite !elem_of_cons, elem_of_nil. lia. }
  destruct x as [x1 x2], c as [c1 c2]. simpl. split.
  - intros [H | (di & dj & Hdi & Hdj & Hnz & Heq & Hb1 & Hb2)].
    + by apply not_elem_of_empty in H.
    + apply Hoff in Hdi, Hdj. injection Heq as -> ->.
      split; [|lia]. intros [= ? ?]. apply Hnz. lia.
  - intros (Hne & H1 & H2 & Hb1 & Hb2). right.
    exists (x1 - c1), (x2 - c2). rewrite !Hoff.
    split; [lia|]. split; [lia|]. split.
    + intros [? ?]. apply Hne. f_equal; lia.
    + split; [f_equal; lia | lia].
Qed.

Lemma undetermined_after_mark (c : cell) (st : t) :
  neighbors (height st) (width st) c ∖ (safes st ∪ {[c]}) ∖ mines st
  = undetermined c st.
Proof.
  unfold undetermined. apply set_eq. intros x.
  rewrite !elem_of_difference, elem_of_union, elem_of_singleton, elem_of_neighbors.
  naive_solver.
Qed.

Lemma no_mine_left (X M : gset cell) :
  filter (λ n, n ∈ M) (elements (X ∖ M)) = [].
Proof.
  assert (H : ∀ l : list cell, (∀ x, x ∈ l → x ∉ M) → filter (λ n, n ∈ M) l = []).
  { induction l as [|x l IH]; intros Hl; [done|].
    rewrite filter_cons_False by (apply Hl; left).
    apply IH. intros y Hy. apply Hl. by right. }
  apply H. intros x Hx.
  apply elem_of_elements, elem_of_difference in Hx. tauto.
Qed.

(** What steps 1 to 4 of [add_knowledge] compute.  The sum that should
    adjust the count ranges over a set from which the known mines were
    already removed, so it is 0 and the new sentence carries the count as
    it was reported. *)
Lemma observe_eq (c : cell) (count : Z) (st : t) :
  observe c count st =
  AI (height st) (width st) (moves_made st ∪ {[c]}) (mines st) (safes st ∪ {[c]})
     (map (Sentence.mark_safe c) (knowledge st)
      ++ (if bool_decide (undetermined c st ≠ ∅)
          then [Sentence.Sentence (undetermined c st) count] else [])).
Proof.
  unfold observe, mark_safe, set_knowledge. simpl.
  rewrite no_mine_left, undetermined_after_mark. simpl. rewrite Z.sub_0_r.
  case_bool_decide; [done | by rewrite app_nil_r].
Qed.

(** When some neighbour is undetermined, the sentence that is appended has
    the undetermined neighbours as cells and the reported count as count. *)
Lemma observe_appends (c : cell) (count : Z) (st : t) :
  undetermined c st ≠ ∅ →
  knowledge (observe c count st) =
  map (Sentence.mark_safe c) (knowledge st)
  ++ [Sentence.Sentence (undetermined c st) count].
Proof.
  intros Hne. rewrite observe_eq. simpl. by rewrite bool_decide_eq_true_2.
Qed.

Lemma observe_moves_made (c : cell) (count : Z) (st : t) :
  moves_made (observe c count st) = moves_made st ∪ {[c]}.
Proof. by rewrite observe_eq. Qed.

Lemma observe_safes (c : cell) (count : Z) (st : t) :
  safes (observe c count st) = safes st ∪ {[c]}.
Proof. by rewrite observe_eq. Qed.

Lemma observe_mines (c : cell) (count : Z) (st : t) :
  mines (observe c count st) = mines st.
Proof. by rewrite observe_eq. Qed.

(** C1. On a 3 by 3 board where (1,0) is a known mine and (1,1) is known
    safe, the only undetermined neighbour of (0,0) is (0,1).  Revealing
    (0,0) with count 1 appends the sentence {(0,1)} = 1: the known mine
    (1,0) is not subtracted from the count, which the specification puts
    at 0.
    Propagation then marks (0,1) as a mine and not as safe. *)
Theorem add_knowledge_keeps_reported_count :
  let st := mark_safe (1, 1) (mark_mine (1, 0) (init 3 3)) in
  undetermined (0, 0) st = {[(0, 1)]}
  ∧ neighbors 3 3 (0, 0) ∩ mines st = {[(1, 0)]}
  ∧ knowledge (observe (0, 0) 1 st) = [Sentence.Sentence {[(0, 1)]} 1]
  ∧ add_knowledge 2 (0, 0) 1 st =
      Some (AI 3 3 {[(0, 0)]} {[(1, 0); (0, 1)]} {[(1, 1); (0, 0)]} []).
Proof. cbv zeta. split_and!; vm_compute; reflexivity. Qed.

(** C4. A board with mines at (0,1), (1,0) and (1,1), and a player that
    reveals the safe cells (0,0) and (0,2) and reports the true numbers of
    neighbouring mines, 3 and 2.  The first call marks the three mines.
    The second leaves the sentence {(1,2)} = 2 in the knowledge base: its
    count exceeds its number of cells. *)
Theorem truthful_play_breaks_count_bound :
  let g := Minesweeper.Game 3 3 {[(0, 1); (1, 0); (1, 1)]}
             [[false; true; false]; [true; true; false]; [false; false; false]] ∅ in
  let st1 := AI 3 3 {[(0, 0)]} {[(0, 1); (1, 0); (1, 1)]} {[(0, 0)]} [] in
  let st2 := AI 3 3 {[(0, 0); (0, 2)]} {[(0, 1); (1, 0); (1, 1)]} {[(0, 0); (0, 2)]}
               [Sentence.Sentence {[(1, 2)]} 2] in
  Minesweeper.init 3 3 3 [(0, 1); (1, 0); (1, 1)] = Done g
  ∧ Minesweeper.is_mine g (0, 0) = Some false
  ∧ Minesweeper.is_mine g (0, 2) = Some false
  ∧ Minesweeper.nearby_mines g (0, 0) = 3
  ∧ Minesweeper.nearby_mines g (0, 2) = 2
  ∧ add_knowledge 2 (0, 0) (Minesweeper.nearby_mines g (0, 0)) (init 3 3) = Some st1
  ∧ add_knowledge 1 (0, 2) (Minesweeper.nearby_mines g (0, 2)) st1 = Some st2
  ∧ Forall (λ s, Z.of_nat (size (Sentence.cells s)) < Sentence.count s) (knowledge st2).
Proof.
  cbv zeta. split_and!; try (vm_compute; reflexivity).
  repeat constructor.
Qed.

(** C7, refuted as stated.  On a 3 by 3 board, [add_knowledge] is called for
    (0,0), then again for the same cell, which is in [moves_made] by then,
    then for (5,5), which is outside the board.  Each call returns a new
    state: the second one appends a second copy of the sentence, the third
    one records (5,5) as a move and as a safe cell. *)
Lemma add_knowledge_accepts_any_cell :
  let s := Sentence.Sentence {[(0, 1); (1, 0); (1, 1)]} 1 in
  let st1 := AI 3 3 {[(0, 0)]} ∅ {[(0, 0)]} [s] in
  let st2 := AI 3 3 {[(0, 0)]} ∅ {[(0, 0)]} [s; s] in
  let st3 := AI 3 3 {[(0, 0); (5, 5)]} ∅ {[(0, 0); (5, 5)]} [s; s] in
  add_knowledge 1 (0, 0) 1 (init 3 3) = Some st1
  ∧ (0, 0) ∈ moves_made st1
  ∧ add_knowledge 1 (0, 0) 1 st1 = Some st2
  ∧ st2 ≠ st1
  ∧ ¬ (0 ≤ 5 < height st2 ∧ 0 ≤ 5 < width st2)
  ∧ add_knowledge 1 (5, 5) 0 st2 = Some st3
  ∧ st3 ≠ st2.
Proof.
  cbv zeta. split_and!.
  - vm_compute. reflexivity.
  - set_solver.
  - vm_compute. reflexivity.
  - intros [=].
  - simpl. lia.
  - vm_compute. reflexivity.
  - intros H. apply (f_equal (λ st, size (moves_made st))) in H.
    vm_compute in H. discriminate.
Qed.

(** ** Inference of new sentences *)

Lemma infer_step_incl kb s1 s2 new x :
  x ∈ new → x ∈ infer_step kb s1 s2 new.
Proof.
  intros Hx. unfold infer_step.
  repeat case_match; try done. apply elem_of_app. by left.
Qed.

Lemma infer_step_complete kb s1 s2 new :
  resolvable s1 s2 →
  resolvent s1 s2 ∈ kb ∨ resolvent s1 s2 ∈ infer_step kb s1 s2 new.
Proof.
  intros (Hne & Hsub & Hcells). unfold infer_step.
  apply sentence_eqb_neq in Hne. rewrite Hne.
  rewrite bool_decide_eq_true_2 by done.
  fold (resolvent s1 s2).
  destruct (contains kb (resolvent s1 s2)) eqn:Hkb; simpl.
  { left. by apply contains_elem_of. }
  destruct (contains new (resolvent s1 s2)) eqn:Hnew; simpl.
  { right. by apply contains_elem_of. }
  rewrite bool_decide_eq_true_2 by done.
  right. apply elem_of_app. right. by apply list_elem_of_singleton.
Qed.

Lemma infer_step_sound kb s1 s2 new x :
  x ∈ infer_step kb s1 s2 new →
  x ∈ new ∨ (x = resolvent s1 s2 ∧ resolvable s1 s2 ∧ (x ∉ kb) ∧ (x ∉ new)).
Proof.
  unfold infer_step. fold (resolvent s1 s2).
  destruct (Sentence.eqb s1 s2) eqn:Hne; [by left|].
  case_bool_decide as Hsub; [|by left].
  destruct (contains kb (resolvent s1 s2)) eqn:Hkb; simpl; [by left|].
  destruct (contains new (resolvent s1 s2)) eqn:Hnew; simpl; [by left|].
  case_bool_decide as Hcells; [|by left].
  intros [Hx | Hx]%elem_of_app; [by left|].
  apply list_elem_of_singleton in Hx. subst x. right.
  apply sentence_eqb_neq in Hne.
  apply contains_not_elem_of in Hkb, Hnew. done.
Qed.

Lemma infer_row_incl kb s1 l new x :
  x ∈ new → x ∈ foldl (λ new s2, infer_step kb s1 s2 new) new l.
Proof.
  revert new. induction l as [|s2 l IH]; intros new Hx; simpl; [done|].
  by apply IH, infer_step_incl.
Qed.

Lemma infer_row_complete kb s1 l new s2 :
  s2 ∈ l → resolvable s1 s2 →
  resolvent s1 s2 ∈ kb
  ∨ resolvent s1 s2 ∈ foldl (λ new s2, infer_step kb s1 s2 new) new l.
Proof.
  revert new. induction l as [|y l IH]; intros new Hin Hres; [by inversion Hin|].
  simpl. apply elem_of_cons in Hin as [<- | Hin].
  - destruct (infer_step_complete kb s1 s2 new Hres) as [?|?]; [by left|].
    right. by apply infer_row_incl.
  - by apply IH.
Qed.

Lemma infer_row_sound kb s1 l new x :
  x ∈ foldl (λ new s2, infer_step kb s1 s2 new) new l →
  x ∈ new ∨ ∃ s2, s2 ∈ l ∧ x = resolvent s1 s2 ∧ resolvable s1 s2 ∧ x ∉ kb.
Proof.
  revert new. induction l as [|y l IH]; intros new Hx; simpl in Hx; [by left|].
  apply IH in Hx as [Hx | (s2 & Hs2 & Hrest)].
  - apply infer_step_sound in Hx as [Hx | (Heq & Hres & Hkb & _)]; [by left|].
    right. exists y. split; [left | done].
  - right. exists s2. split; [by right | done].
Qed.

Lemma infer_rows_incl kb l1 l2 new x :
  x ∈ new →
  x ∈ foldl (λ new s1, foldl (λ new s2, infer_step kb s1 s2 new) new l2) new l1.
Proof.
  revert new. induction l1 as [|s1 l1 IH]; intros new Hx; simpl; [done|].
  by apply IH, infer_row_incl.
Qed.

Lemma infer_rows_complete kb l1 l2 new s1 s2 :
  s1 ∈ l1 → s2 ∈ l2 → resolvable s1 s2 →
  resolvent s1 s2 ∈ kb
  ∨ resolvent s1 s2
      ∈ foldl (λ new s1, foldl (λ new s2, infer_step kb s1 s2 new) new l2) new l1.
Proof.
  revert new. induction l1 as [|y l1 IH]; intros new H1 H2 Hres; [by inversion H1|].
  simpl. apply elem_of_cons in H1 as [<- | H1].
  - destruct (infer_row_complete kb s1 l2 new s2 H2 Hres) as [?|?]; [by left|].
    right. by apply infer_rows_incl.
  - by apply IH.
Qed.

Lemma infer_rows_sound kb l1 l2 new x :
  x ∈ foldl (λ new s1, foldl (λ new s2, infer_step kb s1 s2 new) new l2) new l1 →
  x ∈ new
  ∨ ∃ s1 s2, s1 ∈ l1 ∧ s2 ∈ l2 ∧ x = resolvent s1 s2 ∧ resolvable s1 s2 ∧ x ∉ kb.
Proof.
  revert new. induction l1 as [|y l1 IH]; intros new Hx; simpl in Hx; [by left|].
  apply IH in Hx as [Hx | (s1 & s2 & Hs1 & Hrest)].
  - apply infer_row_sound in Hx as [Hx | (s2 & Hs2 & Hrest)]; [by left|].
    right. exists y, s2. split; [left | done].
  - right. exists s1, s2. split; [by right | done].
Qed.

(** Every resolvable pair of the knowledge base has its resolvent in the
    knowledge base or among the new sentences. *)
Lemma infer_complete kb A B :
  A ∈ kb → B ∈ kb → resolvable A B →
  resolvent A B ∈ kb ∨ resolvent A B ∈ infer kb.
Proof. apply infer_rows_complete. Qed.

(** Every new sentence is the resolvent of a resolvable pair of the
    knowledge base, and was not in the knowledge base. *)
Lemma infer_sound kb x :
  x ∈ infer kb →
  ∃ A B, A ∈ kb ∧ B ∈ kb ∧ x = resolvent A B ∧ resolvable A B ∧ x ∉ kb.
Proof.
  intros Hx. apply infer_rows_sound in Hx as [Hx | Hx]; [by inversion Hx | done].
Qed.

Lemma pass_knowledge (st : t) :
  knowledge (pass st).1 =
  knowledge (settle st).1 ++ infer (knowledge (settle st).1).
Proof.
  unfold pass. destruct (infer (knowledge (settle st).1)); simpl; [|done].
  by rewrite app_nil_r.
Qed.

Lemma pass_changed (st : t) :
  (pass st).2 = (settle st).2 || bool_decide (infer (knowledge (settle st).1) ≠ []).
Proof.
  unfold pass. destruct (infer (knowledge (settle st).1)); simpl.
  - by rewrite orb_false_r.
  - by rewrite orb_true_r.
Qed.

(** C2, amended.  Subset-soundness of the resolution step.  Take two sentences [A]
    and [B] that are in the knowledge base when the pass reaches its
    inference loops (after the marking and the removal of empty sentences
    of that pass), different as values, with the cells of [B] among those
    of [A] and at least one cell of [A] outside [B].  At the end of the
    pass the knowledge base holds the sentence with cells
    [A.cells - B.cells] and count [A.count - B.count], either because it
    was there already or because the pass appended it. *)
Theorem subset_soundness (st : t) (A B : Sentence.t) :
  A ∈ knowledge (settle st).1 →
  B ∈ knowledge (settle st).1 →
  A ≠ B →
  Sentence.cells B ⊆ Sentence.cells A →
  Sentence.cells A ∖ Sentence.cells B ≠ ∅ →
  Sentence.Sentence (Sentence.cells A ∖ Sentence.cells B)
                    (Sentence.count A - Sentence.count B)
    ∈ knowledge (pass st).1.
Proof.
  intros HA HB Hne Hsub Hcells. rewrite pass_knowledge. apply elem_of_app.
  apply (infer_complete _ A B HA HB). done.
Qed.

(** C2, refuted as stated.  The knowledge base holds [A = ({(0,0), (0,1)}, 0)]
    and [B = ({(0,0)}, 0)] at the start of a pass.  The pass first marks
    (0,0) and (0,1) as safe, which empties both sentences, and removes
    them; the inference loops then run on an empty knowledge base.  The
    sentence [({(0,1)}, 0)] was not in the knowledge base before the pass
    and is not in it after the pass. *)
Lemma pass_marks_before_inferring :
  let A := Sentence.Sentence {[(0, 0); (0, 1)]} 0 in
  let B := Sentence.Sentence {[(0, 0)]} 0 in
  let st := AI 3 3 ∅ ∅ ∅ [A; B] in
  A ∈ knowledge st ∧ B ∈ knowledge st ∧ A ≠ B
  ∧ Sentence.cells B ⊆ Sentence.cells A
  ∧ Sentence.cells A ∖ Sentence.cells B = {[(0, 1)]}
  ∧ (Sentence.Sentence (Sentence.cells A ∖ Sentence.cells B)
                       (Sentence.count A - Sentence.count B) ∉ knowledge st)
  ∧ pass st = (AI 3 3 ∅ ∅ {[(0, 0); (0, 1)]} [], true).
Proof.
  cbv zeta. split_and!.
  - left.
  - right. left.
  - by intros [=].
  - simpl. set_solver.
  - vm_compute. reflexivity.
  - simpl. intros H.
    apply elem_of_cons in H as [H | H]; [by injection H|].
    apply elem_of_cons in H as [H | H]; [by injection H|].
    by inversion H.
  - vm_compute. reflexivity.
Qed.

Lemma subset_soundness_witness :
  let A := Sentence.Sentence {[(0, 0); (0, 1); (0, 2)]} 1 in
  let B := Sentence.Sentence {[(0, 0); (0, 1)]} 1 in
  let st := AI 3 3 ∅ ∅ ∅ [A; B] in
  knowledge (settle st).1 = [A; B]
  ∧ Sentence.Sentence (Sentence.cells A ∖ Sentence.cells B)
                      (Sentence.count A - Sentence.count B)
      ∈ knowledge (pass st).1.
Proof.
  cbv zeta.
  assert (Hk : knowledge (settle (AI 3 3 ∅ ∅ ∅
                 [Sentence.Sentence {[(0, 0); (0, 1); (0, 2)]} 1;
                  Sentence.Sentence {[(0, 0); (0, 1)]} 1])).1
               = [Sentence.Sentence {[(0, 0); (0, 1); (0, 2)]} 1;
                  Sentence.Sentence {[(0, 0); (0, 1)]} 1])
    by (vm_compute; reflexivity).
  split; [exact Hk|].
  apply (subset_soundness (AI 3 3 ∅ ∅ ∅
           [Sentence.Sentence {[(0, 0); (0, 1); (0, 2)]} 1;
            Sentence.Sentence {[(0, 0); (0, 1)]} 1])
           (Sentence.Sentence {[(0, 0); (0, 1); (0, 2)]} 1)
           (Sentence.Sentence {[(0, 0); (0, 1)]} 1)).
  - rewrite Hk. left.
  - rewrite Hk. right. left.
  - by intros [=].
  - simpl. set_solver.
  - simpl. intros H. apply (f_equal size) in H. vm_compute in H. discriminate.
Defined.

(** ** Invariants of a pass *)

Lemma elem_of_collect_safes kb x :
  x ∈ (collect kb).1 ↔ ∃ s, s ∈ kb ∧ x ∈ Sentence.known_safes s.
Proof.
  unfold collect.
  assert (H : ∀ acc : gset cell * gset cell,
    x ∈ (foldl (λ acc s, (acc.1 ∪ Sentence.known_safes s,
                          acc.2 ∪ Sentence.known_mines s)) acc kb).1
    ↔ x ∈ acc.1 ∨ ∃ s, s ∈ kb ∧ x ∈ Sentence.known_safes s).
  { induction kb as [|s kb IH]; intros acc; simpl.
    - split; [by left | intros [?|(s & Hs & _)]; [done | by inversion Hs]].
    - rewrite IH. simpl. rewrite elem_of_union. split.
      + intros [[?|?] | (s' & Hs' & ?)]; [by left | right; exists s | right; exists s'];
          (split; [|done]); [left | by right].
      + intros [? | (s' & [-> | Hs']%elem_of_cons & ?)];
          [by left; left | by left; right | right; by exists s']. }
  rewrite H. simpl. split; [intros [Hx | ?]; [by apply not_elem_of_empty in Hx | done] | by right].
Qed.

Lemma elem_of_collect_mines kb x :
  x ∈ (collect kb).2 ↔ ∃ s, s ∈ kb ∧ x ∈ Sentence.known_mines s.
Proof.
  unfold collect.
  assert (H : ∀ acc : gset cell * gset cell,
    x ∈ (foldl (λ acc s, (acc.1 ∪ Sentence.known_safes s,
                          acc.2 ∪ Sentence.known_mines s)) acc kb).2
    ↔ x ∈ acc.2 ∨ ∃ s, s ∈ kb ∧ x ∈ Sentence.known_mines s).
  { induction kb as [|s kb IH]; intros acc; simpl.
    - split; [by left | intros [?|(s & Hs & _)]; [done | by inversion Hs]].
    - rewrite IH. simpl. rewrite elem_of_union. split.
      + intros [[?|?] | (s' & Hs' & ?)]; [by left | right; exists s | right; exists s'];
          (split; [|done]); [left | by right].
      + intros [? | (s' & [-> | Hs']%elem_of_cons & ?)];
          [by left; left | by left; right | right; by exists s']. }
  rewrite H. simpl. split; [intros [Hx | ?]; [by apply not_elem_of_empty in Hx | done] | by right].
Qed.

(** Induction principle for the first half of a pass, with the flag
    [something_changed]. *)
Lemma settle_pair_ind (P : t * bool → Prop) (st : t) :
  P (st, false) →
  (∀ c sc, c ∈ (collect (knowledge st)).1 → c ∉ safes sc.1 → P sc →
           P (mark_safe c sc.1, true)) →
  (∀ c sc, c ∈ (collect (knowledge st)).2 → c ∉ mines sc.1 → P sc →
           P (mark_mine c sc.1, true)) →
  (∀ sc, P sc → P (set_knowledge (drop_empty (knowledge sc.1)) sc.1, sc.2)) →
  P (settle st).
Proof.
  intros H0 Hsafe Hmine Hdrop. unfold settle.
  destruct (collect (knowledge st)) as [new_safes new_mines] eqn:Hcol.
  simpl in Hsafe, Hmine.
  apply Hdrop. unfold mark_new_mines. apply for_each_ind.
  - unfold mark_new_safes. apply for_each_ind; [done|].
    intros c sc Hc Hsc. case_bool_decide; [done|]. by apply Hsafe.
  - intros c sc Hc Hsc. case_bool_decide; [done|]. by apply Hmine.
Qed.

Lemma settle_ind (P : t → Prop) (st : t) :
  P st →
  (∀ c st', c ∈ (collect (knowledge st)).1 → c ∉ safes st' → P st' →
            P (mark_safe c st')) →
  (∀ c st', c ∈ (collect (knowledge st)).2 → c ∉ mines st' → P st' →
            P (mark_mine c st')) →
  (∀ st', P st' → P (set_knowledge (drop_empty (knowledge st')) st')) →
  P (settle st).1.
Proof.
  intros H0 Hsafe Hmine Hdrop.
  apply (settle_pair_ind (λ sc, P sc.1)); simpl; auto.
Qed.

Lemma pass_ind (P : t → Prop) (st : t) :
  P st →
  (∀ c st', c ∈ (collect (knowledge st)).1 → c ∉ safes st' → P st' →
            P (mark_safe c st')) →
  (∀ c st', c ∈ (collect (knowledge st)).2 → c ∉ mines st' → P st' →
            P (mark_mine c st')) →
  (∀ st', P st' → P (set_knowledge (drop_empty (knowledge st')) st')) →
  (∀ st', P st' → P (set_knowledge (knowledge st' ++ infer (knowledge st')) st')) →
  P (pass st).1.
Proof.
  intros H0 Hsafe Hmine Hdrop Hinfer.
  assert (Hs : P (settle st).1) by by apply settle_ind.
  unfold pass. destruct (infer (knowledge (settle st).1)) eqn:Hnew; [done|].
  simpl. rewrite <- Hnew. by apply Hinfer.
Qed.

(** An invariant of every pass holds when [update_knowledge] returns. *)
Lemma update_knowledge_ind (P : t → Prop) (fuel : nat) (st st' : t) :
  (∀ st, P st → P (pass st).1) →
  P st → update_knowledge fuel st = Some st' → P st'.
Proof.
  intros Hpass. revert st. induction fuel as [|fuel IH]; intros st HP; simpl; [done|].
  destruct (pass st).2 eqn:Hch.
  - apply IH. by apply Hpass.
  - intros [= <-]. by apply Hpass.
Qed.

Lemma elem_of_drop_empty kb s :
  s ∈ drop_empty kb ↔ Sentence.cells s ≠ ∅ ∧ s ∈ kb.
Proof.
  unfold drop_empty. apply (list_elem_of_filter (λ s, Sentence.cells s ≠ ∅)).
Qed.

Lemma elem_of_map {A B : Type} (f : A → B) (l : list A) (y : B) :
  y ∈ map f l ↔ ∃ x, y = f x ∧ x ∈ l.
Proof.
  rewrite list_elem_of_In, in_map_iff. split.
  - intros (x & <- & Hx). exists x. by rewrite list_elem_of_In.
  - intros (x & -> & Hx). exists x. by rewrite <- list_elem_of_In.
Qed.

(** *** No sentence mentions a cell whose status is known *)

Lemma apart_init h w : apart (init h w).
Proof. intros s Hs. by inversion Hs. Qed.

Lemma apart_mark_safe c st : apart st → apart (mark_safe c st).
Proof.
  intros Hst s' Hs'. simpl in *.
  apply elem_of_map in Hs' as (s & -> & Hs). destruct (Hst s Hs) as [H1 H2].
  rewrite mark_safe_cells. split.
  - intros x Hx [Hin | Hin%elem_of_singleton]%elem_of_union;
      apply elem_of_difference in Hx as [Hx Hne];
      [by apply (H1 x) | by apply Hne, elem_of_singleton].
  - intros x [Hx _]%elem_of_difference Hin. by apply (H2 x).
Qed.

Lemma apart_mark_mine c st : apart st → apart (mark_mine c st).
Proof.
  intros Hst s' Hs'. simpl in *.
  apply elem_of_map in Hs' as (s & -> & Hs). destruct (Hst s Hs) as [H1 H2].
  rewrite mark_mine_cells. split.
  - intros x [Hx _]%elem_of_difference Hin. by apply (H1 x).
  - intros x Hx [Hin | Hin%elem_of_singleton]%elem_of_union;
      apply elem_of_difference in Hx as [Hx Hne];
      [by apply (H2 x) | by apply Hne, elem_of_singleton].
Qed.

Lemma apart_drop_empty st :
  apart st → apart (set_knowledge (drop_empty (knowledge st)) st).
Proof.
  intros Hst s Hs. simpl in *. apply elem_of_drop_empty in Hs as [_ Hs].
  by apply Hst.
Qed.

Lemma apart_infer st :
  apart st → apart (set_knowledge (knowledge st ++ infer (knowledge st)) st).
Proof.
  intros Hst s Hs. simpl in *. apply elem_of_app in Hs as [Hs | Hs]; [by apply Hst|].
  apply infer_sound in Hs as (A & B & HA & _ & -> & _).
  destruct (Hst A HA) as [H1 H2]. simpl. split.
  - intros x [Hx _]%elem_of_difference Hin. by apply (H1 x).
  - intros x [Hx _]%elem_of_difference Hin. by apply (H2 x).
Qed.

Lemma apart_pass st : apart st → apart (pass st).1.
Proof.
  intros Hst. apply pass_ind; auto using apart_mark_safe, apart_mark_mine,
    apart_drop_empty, apart_infer.
Qed.

Lemma apart_observe c count st : apart st → apart (observe c count st).
Proof.
  intros Hst. rewrite observe_eq. intros s Hs. simpl in *.
  apply elem_of_app in Hs as [Hs | Hs].
  - by apply (apart_mark_safe c st Hst s).
  - case_bool_decide; [|by inversion Hs].
    apply list_elem_of_singleton in Hs as ->. simpl. unfold undetermined. split.
    + intros x Hx [Hin | Hin%elem_of_singleton]%elem_of_union.
      * apply elem_of_difference in Hx as [Hx _].
        apply elem_of_difference in Hx as [_ Hx]. done.
      * subst x. apply elem_of_difference in Hx as [Hx _].
        apply elem_of_difference in Hx as [Hx _].
        apply elem_of_neighbors in Hx as [Hx _]. done.
    + intros x [_ Hx]%elem_of_difference Hin. done.
Qed.

(** *** The operations of the engine *)

Lemma reachable_ind_l (P : t → Prop) (h w : Z) :
  P (init h w) →
  (∀ st st', P st → step st st' → P st') →
  ∀ st, reachable h w st → P st.
Proof.
  intros H0 Hstep st Hst. unfold reachable in Hst.
  apply rtc_nsteps in Hst as [n Hn]. revert st Hn.
  induction n as [|n IH]; intros st Hn.
  - by inversion Hn; subst.
  - apply nsteps_inv_r in Hn as (st1 & Hn & Hs). eapply Hstep; [|exact Hs]. by apply IH.
Qed.

Lemma apart_step st st' : apart st → step st st' → apart st'.
Proof.
  intros Hst Hs. destruct Hs as [c st | c st | fuel c count st st' H | fuel st st' H].
  - by apply apart_mark_mine.
  - by apply apart_mark_safe.
  - unfold add_knowledge in H.
    eapply (update_knowledge_ind apart); [apply apart_pass | | exact H].
    by apply apart_observe.
  - eapply (update_knowledge_ind apart); [apply apart_pass | exact Hst | exact H].
Qed.

(** C9. In every state that a sequence of engine operations reaches from a
    new engine, the cells of every sentence of the knowledge base are
    disjoint from [safes] and from [mines]. *)
Theorem knowledge_apart_from_known_cells (h w : Z) (st : t) :
  reachable h w st →
  ∀ s, s ∈ knowledge st →
       Sentence.cells s ## safes st ∧ Sentence.cells s ## mines st.
Proof.
  intros Hst. change (apart st). revert st Hst.
  apply reachable_ind_l; [apply apart_init | apply apart_step].
Qed.

Lemma knowledge_apart_from_known_cells_witness :
  let s := Sentence.Sentence {[(0, 1); (1, 0); (1, 1)]} 1 in
  let st := AI 3 3 {[(0, 0)]} ∅ {[(0, 0)]} [s] in
  reachable 3 3 st ∧ s ∈ knowledge st
  ∧ Sentence.cells s ## safes st ∧ Sentence.cells s ## mines st.
Proof.
  cbv zeta.
  assert (Hr : reachable 3 3
    (AI 3 3 {[(0, 0)]} ∅ {[(0, 0)]}
        [Sentence.Sentence {[(0, 1); (1, 0); (1, 1)]} 1])).
  { eapply rtc_l; [|apply rtc_refl].
    apply (step_add_knowledge 1 (0, 0) 1). vm_compute. reflexivity. }
  assert (Hs : Sentence.Sentence {[(0, 1); (1, 0); (1, 1)]} 1
               ∈ knowledge (AI 3 3 {[(0, 0)]} ∅ {[(0, 0)]}
                   [Sentence.Sentence {[(0, 1); (1, 0); (1, 1)]} 1])).
  { simpl. left. }
  split; [exact Hr|]. split; [exact Hs|].
  exact (knowledge_apart_from_known_cells 3 3 _ Hr _ Hs).
Defined.

(** *** The three sets only grow *)

Lemma grows_refl st : grows st st.
Proof. by repeat split. Qed.

Lemma grows_trans st1 st2 st3 : grows st1 st2 → grows st2 st3 → grows st1 st3.
Proof.
  intros (H1 & H2 & H3) (H4 & H5 & H6).
  repeat split; etrans; eauto.
Qed.

Lemma grows_mark_safe c st : grows st (mark_safe c st).
Proof. repeat split; simpl; [done | apply union_subseteq_l | done]. Qed.

Lemma grows_mark_mine c st : grows st (mark_mine c st).
Proof. repeat split; simpl; [done | done | apply union_subseteq_l]. Qed.

Lemma grows_set_knowledge kb st : grows st (set_knowledge kb st).
Proof. by repeat split. Qed.

Lemma grows_observe c count st : grows st (observe c count st).
Proof.
  rewrite observe_eq. repeat split; simpl; try done; apply union_subseteq_l.
Qed.

Lemma grows_pass st : grows st (pass st).1.
Proof.
  apply (pass_ind (grows st)); [apply grows_refl | ..].
  - intros c st' _ _ H. eapply grows_trans; [exact H | apply grows_mark_safe].
  - intros c st' _ _ H. eapply grows_trans; [exact H | apply grows_mark_mine].
  - intros st' H. eapply grows_trans; [exact H | apply grows_set_knowledge].
  - intros st' H. eapply grows_trans; [exact H | apply grows_set_knowledge].
Qed.

Lemma grows_update_knowledge fuel st st' :
  update_knowledge fuel st = Some st' → grows st st'.
Proof.
  apply (update_knowledge_ind (grows st)); [|apply grows_refl].
  intros st1 H. eapply grows_trans; [exact H | apply grows_pass].
Qed.

Lemma grows_step st st' : step st st' → grows st st'.
Proof.
  intros [c st0 | c st0 | fuel c count st0 st1 H | fuel st0 st1 H].
  - apply grows_mark_mine.
  - apply grows_mark_safe.
  - eapply grows_trans; [apply (grows_observe c count) |].
    by apply (grows_update_knowledge fuel).
  - by apply (grows_update_knowledge fuel).
Qed.

Lemma played_safe_pass st : played_safe st → played_safe (pass st).1.
Proof.
  intros Hst. apply pass_ind; [done | ..]; unfold played_safe; simpl; try done.
  intros c st' _ _ H. etrans; [exact H | apply union_subseteq_l].
Qed.

Lemma played_safe_step st st' : played_safe st → step st st' → played_safe st'.
Proof.
  intros Hst Hs.
  destruct Hs as [c st | c st | fuel c count st st' H | fuel st st' H].
  - exact Hst.
  - unfold played_safe in *. simpl. etrans; [exact Hst | apply union_subseteq_l].
  - eapply (update_knowledge_ind played_safe); [apply played_safe_pass | | exact H].
    unfold played_safe in *. rewrite observe_eq. simpl.
    by apply union_mono_r.
  - eapply (update_knowledge_ind played_safe); [apply played_safe_pass | exact Hst | exact H].
Qed.

(** *** Agreement with a layout of mines *)

Lemma fits_bounds M s :
  fits M s → 0 ≤ Sentence.count s ≤ Z.of_nat (size (Sentence.cells s)).
Proof.
  unfold fits. intros ->.
  assert (size (Sentence.cells s ∩ M) ≤ size (Sentence.cells s))%nat.
  { apply subseteq_size, intersection_subseteq_l. }
  lia.
Qed.

Lemma fits_known_safes M s : fits M s → Sentence.known_safes s ## M.
Proof.
  unfold fits, Sentence.known_safes. intros Hs.
  destruct (Z.eqb_spec (Sentence.count s) 0) as [H0|]; [|set_solver].
  assert (Hsz : size (Sentence.cells s ∩ M) = 0%nat) by lia.
  apply size_empty_iff in Hsz. intros x Hx HM.
  apply (not_elem_of_empty (C:=gset cell) x). rewrite <- Hsz.
  by apply elem_of_intersection.
Qed.

Lemma fits_known_mines M s : fits M s → Sentence.known_mines s ⊆ M.
Proof.
  unfold fits, Sentence.known_mines. intros Hs.
  destruct (Z.eqb_spec (Z.of_nat (size (Sentence.cells s))) (Sentence.count s))
    as [Heq|]; simpl; [|set_solver].
  destruct (0 <? Sentence.count s); [|set_solver].
  assert (Hsub : Sentence.cells s ∩ M = Sentence.cells s).
  { apply set_subseteq_size_eq; [apply intersection_subseteq_l | lia]. }
  intros x Hx. rewrite <- Hsub in Hx. by apply elem_of_intersection in Hx as [_ ?].
Qed.

Lemma fits_mark_safe M c s : c ∉ M → fits M s → fits M (Sentence.mark_safe c s).
Proof.
  unfold fits. intros Hc Hs. rewrite mark_safe_count, mark_safe_cells, Hs.
  do 2 f_equal. set_solver.
Qed.

Lemma fits_mark_mine M c s : c ∈ M → fits M s → fits M (Sentence.mark_mine c s).
Proof.
  unfold fits, Sentence.mark_mine. intros Hc Hs.
  case_bool_decide as Hin; [|done]. simpl.
  assert (Heq : (Sentence.cells s ∖ {[c]}) ∩ M = (Sentence.cells s ∩ M) ∖ {[c]}).
  { set_solver. }
  rewrite Heq, size_difference, size_singleton, Hs.
  - assert (0 < size (Sentence.cells s ∩ M))%nat; [|lia].
    assert (Hle : (size ({[c]} : gset cell) ≤ size (Sentence.cells s ∩ M))%nat).
    { apply subseteq_size. apply singleton_subseteq_l. by apply elem_of_intersection. }
    rewrite size_singleton in Hle. lia.
  - apply singleton_subseteq_l. by apply elem_of_intersection.
Qed.

Lemma fits_resolvent M A B :
  Sentence.cells B ⊆ Sentence.cells A →
  fits M A → fits M B → fits M (resolvent A B).
Proof.
  unfold fits. intros Hsub HA HB. simpl.
  assert (Heq : (Sentence.cells A ∖ Sentence.cells B) ∩ M
                = (Sentence.cells A ∩ M) ∖ (Sentence.cells B ∩ M)).
  { set_solver. }
  assert (Hle : (size (Sentence.cells B ∩ M) ≤ size (Sentence.cells A ∩ M))%nat).
  { apply subseteq_size. intros x. rewrite !elem_of_intersection.
    intros [? ?]. split; [by apply Hsub | done]. }
  rewrite Heq, size_difference, HA, HB.
  - lia.
  - intros x. rewrite !elem_of_intersection. intros [? ?]. split; [by apply Hsub | done].
Qed.

Lemma consistent_mark_safe M c st :
  c ∉ M → consistent M st → consistent M (mark_safe c st).
Proof.
  intros Hc (Hm & Hs & Hkb). repeat split; simpl; [done | |].
  - intros x [Hx | Hx%elem_of_singleton]%elem_of_union HM; [by apply (Hs x)|].
    by subst.
  - intros s' (s & -> & Hin)%elem_of_map. by apply fits_mark_safe, Hkb.
Qed.

Lemma consistent_mark_mine M c st :
  c ∈ M → consistent M st → consistent M (mark_mine c st).
Proof.
  intros Hc (Hm & Hs & Hkb). repeat split; simpl; [|done|].
  - apply union_subseteq. split; [done | by apply singleton_subseteq_l].
  - intros s' (s & -> & Hin)%elem_of_map. by apply fits_mark_mine, Hkb.
Qed.

Lemma consistent_drop_empty M st :
  consistent M st → consistent M (set_knowledge (drop_empty (knowledge st)) st).
Proof.
  intros (Hm & Hs & Hkb). repeat split; simpl; [done | done |].
  intros s [_ Hin]%elem_of_drop_empty. by apply Hkb.
Qed.

Lemma consistent_infer M st :
  consistent M st →
  consistent M (set_knowledge (knowledge st ++ infer (knowledge st)) st).
Proof.
  intros (Hm & Hs & Hkb). repeat split; simpl; [done | done |].
  intros s [Hin | Hin]%elem_of_app; [by apply Hkb|].
  apply infer_sound in Hin as (A & B & HA & HB & -> & (_ & Hsub & _) & _).
  apply fits_resolvent; auto.
Qed.

Lemma consistent_collect_safes M st c :
  consistent M st → c ∈ (collect (knowledge st)).1 → c ∉ M.
Proof.
  intros (_ & _ & Hkb) (s & Hs & Hc)%elem_of_collect_safes HM.
  by apply (fits_known_safes M s (Hkb s Hs) c).
Qed.

Lemma consistent_collect_mines M st c :
  consistent M st → c ∈ (collect (knowledge st)).2 → c ∈ M.
Proof.
  intros (_ & _ & Hkb) (s & Hs & Hc)%elem_of_collect_mines.
  by apply (fits_known_mines M s (Hkb s Hs) c).
Qed.

(** A pass keeps the state consistent with the layout. *)
Lemma consistent_pass M st : consistent M st → consistent M (pass st).1.
Proof.
  intros Hst. apply pass_ind; [done | ..].
  - intros c st' Hc _ H. apply consistent_mark_safe; [|done].
    by apply (consistent_collect_safes M st).
  - intros c st' Hc _ H. apply consistent_mark_mine; [|done].
    by apply (consistent_collect_mines M st).
  - intros st'. apply consistent_drop_empty.
  - intros st'. apply consistent_infer.
Qed.

Lemma consistent_update_knowledge M fuel st st' :
  consistent M st → update_knowledge fuel st = Some st' → consistent M st'.
Proof. apply update_knowledge_ind, consistent_pass. Qed.

Lemma consistent_disjoint M st : consistent M st → safes st ## mines st.
Proof.
  intros (Hm & Hs & _) x Hx Hx'. apply (Hs x Hx). by apply Hm.
Qed.

Lemma consistent_init M h w : consistent M (init h w).
Proof.
  repeat split; simpl; [set_solver | set_solver |]. intros s Hs. by inversion Hs.
Qed.

(** Recording a truthful observation of a cell that is not a mine keeps the
    state consistent, provided no neighbour of the cell is a known mine
    (the case in which the reported count needs no adjustment). *)
Lemma consistent_observe M c count st :
  c ∉ M →
  count = Z.of_nat (size (neighbors (height st) (width st) c ∩ M)) →
  neighbors (height st) (width st) c ## mines st →
  consistent M st → consistent M (observe c count st).
Proof.
  intros Hc Hcount Hnb Hst. rewrite observe_eq.
  destruct (consistent_mark_safe M c st Hc Hst) as (Hm & Hs & Hkb).
  repeat split; simpl; [done | done |].
  intros s [Hin | Hin]%elem_of_app; [by apply Hkb|].
  case_bool_decide; [|by inversion Hin].
  apply list_elem_of_singleton in Hin as ->. unfold fits, undetermined. simpl.
  rewrite Hcount. do 2 f_equal. destruct Hst as (_ & Hsafe & _).
  set_solver.
Qed.

(** C5, refuted as stated.  After the first observation on a new 3 by 3
    board the revealed cell is both in [moves_made] and in [safes]: these
    two sets do intersect. *)
Lemma played_cell_is_in_safes :
  let st := AI 3 3 {[(0, 0)]} ∅ {[(0, 0)]}
              [Sentence.Sentence {[(0, 1); (1, 0); (1, 1)]} 1] in
  add_knowledge 1 (0, 0) 1 (init 3 3) = Some st
  ∧ ¬ (moves_made st ## safes st).
Proof.
  cbv zeta. split; [vm_compute; reflexivity|].
  intros H. apply (H (0, 0)); simpl; set_solver.
Qed.

(** C5, amended.  Every engine operation only adds to [moves_made], [safes]
    and [mines].  In every state reached from a new engine [moves_made] is
    included in [safes].  In a state that is consistent with a layout of
    mines, [safes] and [mines] are disjoint, no played cell is a known mine
    as long as the played cells are among the safe ones, and
    [update_knowledge] keeps the state consistent with the layout, pass
    after pass and when it returns. *)
Theorem known_sets_grow :
  (∀ st st', step st st' →
     moves_made st ⊆ moves_made st' ∧ safes st ⊆ safes st' ∧ mines st ⊆ mines st')
  ∧ (∀ h w st, reachable h w st → moves_made st ⊆ safes st)
  ∧ (∀ M st, consistent M st →
       safes st ## mines st
       ∧ (moves_made st ⊆ safes st → moves_made st ## mines st)
       ∧ consistent M (pass st).1
       ∧ ∀ fuel st', update_knowledge fuel st = Some st' →
                     consistent M st' ∧ safes st' ## mines st').
Proof.
  split; [|split].
  - intros st st' Hs. by apply grows_step.
  - intros h w. apply (reachable_ind_l played_safe); [done | apply played_safe_step].
  - intros M st Hst. split; [by apply (consistent_disjoint M)|].
    split; [|split; [by apply consistent_pass|]].
    + intros Hp x Hx Hx'. destruct Hst as (Hm & Hs & _).
      apply (Hs x); [by apply Hp | by apply Hm].
    + intros fuel st' Hu.
      assert (consistent M st') by by apply (consistent_update_knowledge M fuel st).
      split; [done | by apply (consistent_disjoint M)].
Qed.

(** C7, amended.  [add_knowledge] checks neither that the cell is new nor
    that it lies on the board: for every cell and count, its steps 1 to 4
    record the cell in [moves_made] and in [safes], and whenever the
    propagation that follows returns, the cell is in both sets of the
    state that is returned. *)
Theorem add_knowledge_checks_nothing (c : cell) (count : Z) (st : t) :
  c ∈ moves_made (observe c count st)
  ∧ c ∈ safes (observe c count st)
  ∧ ∀ fuel st', add_knowledge fuel c count st = Some st' →
                c ∈ moves_made st' ∧ c ∈ safes st'.
Proof.
  assert (H1 : c ∈ moves_made (observe c count st)).
  { rewrite observe_moves_made. apply elem_of_union. right. by apply elem_of_singleton. }
  assert (H2 : c ∈ safes (observe c count st)).
  { rewrite observe_safes. apply elem_of_union. right. by apply elem_of_singleton. }
  split; [done|]. split; [done|].
  intros fuel st' Hu. apply grows_update_knowledge in Hu as (Hm & Hs & _).
  split; [by apply Hm | by apply Hs].
Qed.

(** ** Termination of [update_knowledge] *)

Lemma elem_of_subsets (l : list cell) (X : gset cell) :
  X ⊆ list_to_set l → X ∈ subsets l.
Proof.
  revert X. induction l as [|x l IH]; intros X HX; simpl in *.
  - assert (X = ∅) as -> by set_solver. left.
  - apply elem_of_app. destruct (decide (x ∈ X)) as [Hx | Hx].
    + right. apply elem_of_map. exists (X ∖ {[x]}). split.
      * apply set_eq. intros y. rewrite elem_of_union, elem_of_difference, elem_of_singleton.
        destruct (decide (y = x)) as [-> | ?]; tauto.
      * apply IH. set_solver.
    + left. apply IH. set_solver.
Qed.

Lemma elem_of_powerset (U X : gset cell) : X ⊆ U → X ∈ powerset U.
Proof.
  intros HX. unfold powerset. apply elem_of_list_to_set, elem_of_subsets.
  intros x Hx. apply elem_of_list_to_set, elem_of_elements. by apply HX.
Qed.

Lemma elem_of_shapes (st : t) (X : gset cell) :
  X ∈ shapes st ↔ X ≠ ∅ ∧ ∃ s, s ∈ knowledge st ∧ Sentence.cells s = X.
Proof.
  unfold shapes. rewrite elem_of_difference, elem_of_list_to_set, elem_of_map,
    elem_of_singleton. naive_solver.
Qed.

Lemma bounded_universe st : bounded (universe st) st.
Proof.
  intros s Hs x Hx. unfold universe. apply elem_of_union_list.
  exists (Sentence.cells s). split; [|done]. apply elem_of_map. by exists s.
Qed.

Lemma bounded_mark_safe U c st : bounded U st → bounded U (mark_safe c st).
Proof.
  intros Hst s' (s & -> & Hs)%elem_of_map. rewrite mark_safe_cells.
  etrans; [|by apply Hst]. set_solver.
Qed.

Lemma bounded_mark_mine U c st : bounded U st → bounded U (mark_mine c st).
Proof.
  intros Hst s' (s & -> & Hs)%elem_of_map. rewrite mark_mine_cells.
  etrans; [|by apply Hst]. set_solver.
Qed.

Lemma bounded_drop_empty U st :
  bounded U st → bounded U (set_knowledge (drop_empty (knowledge st)) st).
Proof. intros Hst s [_ Hs]%elem_of_drop_empty. by apply Hst. Qed.

Lemma bounded_infer U st :
  bounded U st → bounded U (set_knowledge (knowledge st ++ infer (knowledge st)) st).
Proof.
  intros Hst s [Hs | Hs]%elem_of_app; [by apply Hst|].
  apply infer_sound in Hs as (A & B & HA & _ & -> & _). simpl.
  etrans; [|by apply (Hst A)]. set_solver.
Qed.

Lemma bounded_settle U st : bounded U st → bounded U (settle st).1.
Proof.
  intros Hst. apply settle_ind;
    auto using bounded_mark_safe, bounded_mark_mine, bounded_drop_empty.
Qed.

Lemma bounded_pass U st : bounded U st → bounded U (pass st).1.
Proof.
  intros Hst. apply pass_ind;
    auto using bounded_mark_safe, bounded_mark_mine, bounded_drop_empty, bounded_infer.
Qed.

Lemma consistent_settle M st : consistent M st → consistent M (settle st).1.
Proof.
  intros Hst. apply settle_ind; [done | ..].
  - intros c st' Hc _ H. apply consistent_mark_safe; [|done].
    by apply (consistent_collect_safes M st).
  - intros c st' Hc _ H. apply consistent_mark_mine; [|done].
    by apply (consistent_collect_mines M st).
  - intros st'. apply consistent_drop_empty.
Qed.

Lemma size_difference_insert (U X : gset cell) (c : cell) :
  c ∈ U → c ∉ X → (size (U ∖ (X ∪ {[c]})) < size (U ∖ X))%nat.
Proof.
  intros HU HX. apply subset_size. split; [set_solver|].
  intros Hsub. assert (c ∈ U ∖ (X ∪ {[c]})) by (apply Hsub; set_solver).
  set_solver.
Qed.

Lemma unknowns_mark_safe U c st :
  c ∈ U → c ∉ safes st → (unknowns U (mark_safe c st) < unknowns U st)%nat.
Proof.
  intros HU Hc. unfold unknowns. simpl.
  pose proof (size_difference_insert U (safes st) c HU Hc). lia.
Qed.

Lemma unknowns_mark_mine U c st :
  c ∈ U → c ∉ mines st → (unknowns U (mark_mine c st) < unknowns U st)%nat.
Proof.
  intros HU Hc. unfold unknowns. simpl.
  pose proof (size_difference_insert U (mines st) c HU Hc). lia.
Qed.

Lemma shapes_drop_empty st :
  shapes (set_knowledge (drop_empty (knowledge st)) st) = shapes st.
Proof.
  apply set_eq. intros X. rewrite !elem_of_shapes. simpl. split.
  - intros (HX & s & [_ Hs]%elem_of_drop_empty & <-). split; [done|]. by exists s.
  - intros (HX & s & Hs & <-). split; [done|]. exists s. split; [|done].
    by apply elem_of_drop_empty.
Qed.

(** The first half of a pass: when it marks a cell, a cell of [U] becomes
    known; when it marks nothing, it only removes empty sentences. *)
Lemma settle_progress U st :
  bounded U st →
  (unknowns U (settle st).1 ≤ unknowns U st)%nat
  ∧ ((settle st).2 = true → (unknowns U (settle st).1 < unknowns U st)%nat)
  ∧ ((settle st).2 = false → shapes (settle st).1 = shapes st).
Proof.
  intros Hb.
  apply (settle_pair_ind (λ sc,
    (unknowns U sc.1 ≤ unknowns U st)%nat
    ∧ (sc.2 = true → (unknowns U sc.1 < unknowns U st)%nat)
    ∧ (sc.2 = false → shapes sc.1 = shapes st))); simpl.
  - split; [lia|]. split; [discriminate | done].
  - intros c sc (s & Hs & Hc)%elem_of_collect_safes Hnew (Hle & _ & _).
    assert (c ∈ U) by (eapply Hb; [exact Hs | by apply known_safes_subseteq]).
    pose proof (unknowns_mark_safe U c sc.1 H Hnew). split; [lia|]. split; [lia | discriminate].
  - intros c sc (s & Hs & Hc)%elem_of_collect_mines Hnew (Hle & _ & _).
    assert (c ∈ U) by (eapply Hb; [exact Hs | by apply known_mines_subseteq]).
    pose proof (unknowns_mark_mine U c sc.1 H Hnew). split; [lia|]. split; [lia | discriminate].
  - intros sc (Hle & Hlt & Heq). split; [done|]. split; [done|].
    intros Hf. rewrite shapes_drop_empty. by apply Heq.
Qed.

Lemma pass_known (st : t) :
  safes (pass st).1 = safes (settle st).1 ∧ mines (pass st).1 = mines (settle st).1.
Proof. unfold pass. by destruct (infer (knowledge (settle st).1)). Qed.

Lemma fits_cells_eq M s s' :
  fits M s → fits M s' → Sentence.cells s = Sentence.cells s' → s = s'.
Proof.
  unfold fits. destruct s as [X n], s' as [X' n']. simpl.
  intros -> -> ->. reflexivity.
Qed.

(** A pass that reports a change either makes a cell of [U] known, or adds
    to the knowledge base a cell set that did not occur in it. *)
Lemma pass_progress U M st :
  consistent M st → bounded U st → (pass st).2 = true →
  (unknowns U (pass st).1 < unknowns U st)%nat
  ∨ ((unknowns U (pass st).1 ≤ unknowns U st)%nat
     ∧ (missing U (pass st).1 < missing U st)%nat).
Proof.
  intros Hc Hb Hch.
  destruct (settle_progress U st Hb) as (Hle & Hlt & Heq).
  assert (Hu : unknowns U (pass st).1 = unknowns U (settle st).1).
  { unfold unknowns. destruct (pass_known st) as [-> ->]. done. }
  rewrite Hu. rewrite pass_changed in Hch.
  destruct (settle st).2 eqn:Hset; [left; by apply Hlt|]. right. split; [done|].
  simpl in Hch. apply bool_decide_eq_true in Hch.
  specialize (Heq eq_refl).
  destruct (infer (knowledge (settle st).1)) as [|x l] eqn:Hinf; [done|].
  assert (Hx : x ∈ infer (knowledge (settle st).1)) by (rewrite Hinf; left).
  pose proof (consistent_settle M st Hc) as (_ & _ & Hfit).
  pose proof (consistent_pass M st Hc) as (_ & _ & Hfit').
  assert (Hxp : x ∈ knowledge (pass st).1).
  { rewrite pass_knowledge. apply elem_of_app. by right. }
  apply infer_sound in Hx as (A & B & HA & HB & Hxeq & (_ & _ & Hne) & Hnew).
  assert (Hcells : Sentence.cells x ≠ ∅) by by subst x.
  unfold missing. apply subset_size. split.
  - intros X [HP HX]%elem_of_difference. apply elem_of_difference. split; [done|].
    intros HX'. apply HX. rewrite <- Heq in HX'.
    apply elem_of_shapes in HX' as (Hnemp & s & Hs & <-).
    apply elem_of_shapes. split; [done|]. exists s. split; [|done].
    rewrite pass_knowledge. apply elem_of_app. by left.
  - intros Hsub.
    assert (Hin : Sentence.cells x ∈ powerset U ∖ shapes st).
    { apply elem_of_difference. split.
      - apply elem_of_powerset. by apply (bounded_pass U st Hb).
      - rewrite <- Heq. intros (_ & s & Hs & Hsx)%elem_of_shapes.
        apply Hnew. rewrite <- (fits_cells_eq M s x); auto. }
    apply Hsub in Hin. apply elem_of_difference in Hin as [_ Hin].
    apply Hin, elem_of_shapes. split; [done|]. by exists x.
Qed.

Lemma update_knowledge_terminates_from U M (n1 : nat) :
  ∀ (n2 : nat) st,
    consistent M st → bounded U st →
    unknowns U st = n1 → missing U st = n2 →
    ∃ fuel st', update_knowledge fuel st = Some st'.
Proof.
  induction n1 as [n1 IH1] using lt_wf_ind.
  induction n2 as [n2 IH2] using lt_wf_ind.
  intros st Hc Hb H1 H2.
  destruct (pass st).2 eqn:Hch.
  - assert (Hc' := consistent_pass M st Hc).
    assert (Hb' := bounded_pass U st Hb).
    destruct (pass_progress U M st Hc Hb Hch) as [Hlt | [Hle Hlt]].
    + destruct (IH1 (unknowns U (pass st).1) ltac:(lia) _ (pass st).1 Hc' Hb' eq_refl eq_refl)
        as (fuel & st' & Hu).
      exists (S fuel), st'. simpl. by rewrite Hch.
    + destruct (Nat.eq_dec (unknowns U (pass st).1) n1) as [Heq | Hne].
      * destruct (IH2 (missing U (pass st).1) ltac:(lia) (pass st).1 Hc' Hb' Heq eq_refl)
          as (fuel & st' & Hu).
        exists (S fuel), st'. simpl. by rewrite Hch.
      * destruct (IH1 (unknowns U (pass st).1) ltac:(lia) _ (pass st).1 Hc' Hb' eq_refl eq_refl)
          as (fuel & st' & Hu).
        exists (S fuel), st'. simpl. by rewrite Hch.
  - exists 1%nat, (pass st).1. simpl. by rewrite Hch.
Qed.

(** C3, amended.  When the state is consistent with some layout of mines
    (known mines are mines, known safe cells are not, and every sentence
    counts the mines among its cells), [update_knowledge] returns: some
    number of passes is enough for the loop to exit. *)
Theorem update_knowledge_terminates (M : gset cell) (st : t) :
  consistent M st →
  ∃ fuel st', update_knowledge fuel st = Some st'.
Proof.
  intros Hc.
  apply (update_knowledge_terminates_from (universe st) M _ _ st Hc
           (bounded_universe st) eq_refl eq_refl).
Qed.

Lemma update_knowledge_terminates_witness :
  let M : gset cell := {[(0, 0)]} in
  let st := AI 3 3 ∅ ∅ ∅ [Sentence.Sentence {[(0, 0); (0, 1); (0, 2)]} 1;
                          Sentence.Sentence {[(0, 0); (0, 1)]} 1] in
  consistent M st ∧ ∃ fuel st', update_knowledge fuel st = Some st'.
Proof.
  cbv zeta.
  assert (Hc : consistent {[(0, 0)]}
    (AI 3 3 ∅ ∅ ∅ [Sentence.Sentence {[(0, 0); (0, 1); (0, 2)]} 1;
                   Sentence.Sentence {[(0, 0); (0, 1)]} 1])).
  { split; [simpl; set_solver|]. split; [simpl; set_solver|].
    simpl. intros s Hs.
    repeat (apply elem_of_cons in Hs as [-> | Hs]; [vm_compute; reflexivity|]).
    by inversion Hs. }
  split; [exact Hc|].
  exact (update_knowledge_terminates _ _ Hc).
Defined.

(** *** A knowledge base on which the loop never exits *)

Lemma looping_knows_nothing s :
  single s ∨ double s →
  Sentence.known_safes s = ∅ ∧ Sentence.known_mines s = ∅ ∧ Sentence.cells s ≠ ∅.
Proof.
  unfold single, double, Sentence.known_safes, Sentence.known_mines.
  intros [[Hc Hn] | [Hc Hn]].
  - assert (Hsz : size (Sentence.cells s) = 1%nat).
    { destruct Hc as [-> | ->]; apply size_singleton. }
    rewrite Hsz.
    destruct (Z.eqb_spec (Sentence.count s) 0) as [H0|]; [rewrite H0 in Hn; done|].
    destruct (Z.eqb_spec (Z.of_nat 1) (Sentence.count s)) as [H1|];
      [rewrite <- H1 in Hn; done|].
    simpl. repeat split; try done. destruct Hc as [-> | ->]; set_solver.
  - assert (Hsz : size (Sentence.cells s) = 2%nat).
    { rewrite Hc. vm_compute. reflexivity. }
    rewrite Hsz.
    destruct (Z.eqb_spec (Sentence.count s) 0) as [H0|]; [rewrite H0 in Hn; done|].
    destruct (Z.eqb_spec (Z.of_nat 2) (Sentence.count s)) as [H1|];
      [rewrite <- H1 in Hn; done|].
    simpl. repeat split; try done. rewrite Hc. set_solver.
Qed.

Lemma collect_nothing kb :
  (∀ s, s ∈ kb → Sentence.known_safes s = ∅ ∧ Sentence.known_mines s = ∅) →
  collect kb = (∅, ∅).
Proof.
  intros H. apply injective_projections.
  - apply set_eq. intros x. rewrite elem_of_collect_safes. split; [|set_solver].
    intros (s & Hs & Hx). destruct (H s Hs) as [He _]. by rewrite He in Hx.
  - apply set_eq. intros x. rewrite elem_of_collect_mines. split; [|set_solver].
    intros (s & Hs & Hx). destruct (H s Hs) as [_ He]. by rewrite He in Hx.
Qed.

Lemma drop_empty_id kb :
  (∀ s, s ∈ kb → Sentence.cells s ≠ ∅) → drop_empty kb = kb.
Proof.
  induction kb as [|s kb IH]; intros H; [done|]. unfold drop_empty in *.
  rewrite filter_cons_True by (apply H; left). f_equal. apply IH.
  intros s' Hs'. apply H. by right.
Qed.

(** When no sentence knows anything and none is empty, the first half of a
    pass changes nothing. *)
Lemma settle_nothing st :
  (∀ s, s ∈ knowledge st →
        Sentence.known_safes s = ∅ ∧ Sentence.known_mines s = ∅
        ∧ Sentence.cells s ≠ ∅) →
  settle st = (st, false).
Proof.
  intros H. unfold settle. rewrite collect_nothing by (intros s Hs; by destruct (H s Hs) as (? & ? & _)).
  unfold mark_new_mines, mark_new_safes, for_each. rewrite elements_empty. simpl.
  rewrite drop_empty_id by (intros s Hs; by destruct (H s Hs) as (_ & _ & ?)).
  by destruct st.
Qed.

Lemma count_bounded (kb : list Sentence.t) :
  ∃ bound, ∀ s, s ∈ kb → Sentence.count s ≤ bound.
Proof.
  induction kb as [|s kb [bound IH]].
  - exists 0. intros s Hs. by inversion Hs.
  - exists (Z.max (Sentence.count s) bound).
    intros s' [-> | Hs']%elem_of_cons; [lia|]. specialize (IH s' Hs'). lia.
Qed.

(** Resolving a sentence about both cells with a sentence about one of
    them gives a sentence about the other one. *)
Lemma double_single_resolvent A B :
  double A → single B →
  resolvable A B ∧ single (resolvent A B)
  ∧ Sentence.cells A ∖ Sentence.cells (resolvent A B) = Sentence.cells B.
Proof.
  unfold double, single, resolvable, resolvent.
  destruct A as [XA nA], B as [XB nB]. simpl.
  intros [-> HnA] [HXB HnB].
  assert (Hmod : (nA - nB) `mod` 3 = 2).
  { rewrite Zminus_mod, HnA, HnB. reflexivity. }
  destruct HXB as [-> | ->].
  - assert (Hd : ({[(0, 0); (0, 1)]} : gset cell) ∖ {[(0, 0)]} = {[(0, 1)]})
      by (vm_compute; reflexivity).
    rewrite Hd. repeat split; try done; [set_solver | by right].
  - assert (Hd : ({[(0, 0); (0, 1)]} : gset cell) ∖ {[(0, 1)]} = {[(0, 0)]})
      by (vm_compute; reflexivity).
    rewrite Hd. repeat split; try done; [set_solver | by left].
Qed.

(** The only resolvable pairs among such sentences are of that kind. *)
Lemma looping_resolvable A B :
  single A ∨ double A → single B ∨ double B → resolvable A B →
  double A ∧ single B.
Proof.
  unfold single, double, resolvable.
  intros HA HB (Hne & Hsub & Hdiff).
  destruct HA as [[HA _] | [HA HnA]], HB as [[HB HnB] | [HB _]].
  - exfalso. apply Hdiff. destruct HA as [HA | HA], HB as [HB | HB];
      rewrite HA, HB in *; set_solver.
  - exfalso. rewrite HB in Hsub. destruct HA as [HA | HA]; rewrite HA in Hsub.
    + assert ((0, 1) ∈ ({[(0, 0)]} : gset cell)) as H%elem_of_singleton
        by (apply Hsub; set_solver). discriminate.
    + assert ((0, 0) ∈ ({[(0, 1)]} : gset cell)) as H%elem_of_singleton
        by (apply Hsub; set_solver). discriminate.
  - done.
  - exfalso. apply Hdiff. rewrite HA, HB. set_solver.
Qed.

Lemma double_1 : double (Sentence.Sentence {[(0, 0); (0, 1)]} 1).
Proof. by split. Qed.

Lemma double_4 : double (Sentence.Sentence {[(0, 0); (0, 1)]} 4).
Proof. by split. Qed.

(** From such a knowledge base the inference loops always derive a
    sentence: otherwise, with each sentence [{c} = n] about one cell the
    knowledge base would hold [{c} = n + 3]. *)
Lemma looping_infers st : looping st → infer (knowledge st) ≠ [].
Proof.
  intros (H1 & H4 & (s0 & Hs0 & Hsingle0) & Hall) Hnil.
  assert (Hclosed : ∀ A B, A ∈ knowledge st → B ∈ knowledge st →
            double A → single B → resolvent A B ∈ knowledge st).
  { intros A B HA HB HdA HsB.
    destruct (double_single_resolvent A B HdA HsB) as (Hres & _ & _).
    destruct (infer_complete _ A B HA HB Hres) as [H | H]; [done|].
    rewrite Hnil in H. by inversion H. }
  assert (Hstep : ∀ s, s ∈ knowledge st → single s →
            Sentence.Sentence (Sentence.cells s) (Sentence.count s + 3) ∈ knowledge st
            ∧ single (Sentence.Sentence (Sentence.cells s) (Sentence.count s + 3))).
  { intros s Hs Hsingle.
    pose proof (Hclosed _ s H1 Hs double_1 Hsingle) as Hr1.
    destruct (double_single_resolvent _ s double_1 Hsingle) as (_ & Hs1 & Hc1).
    pose proof (Hclosed _ _ H4 Hr1 double_4 Hs1) as Hr2.
    destruct (double_single_resolvent _ _ double_4 Hs1) as (_ & Hs2 & _).
    assert (Heq : resolvent (Sentence.Sentence {[(0, 0); (0, 1)]} 4)
                    (resolvent (Sentence.Sentence {[(0, 0); (0, 1)]} 1) s)
                  = Sentence.Sentence (Sentence.cells s) (Sentence.count s + 3)).
    { unfold resolvent in *. simpl in *. rewrite Hc1. f_equal. lia. }
    rewrite Heq in Hr2, Hs2. done. }
  assert (Hiter : ∀ n : nat,
            Sentence.Sentence (Sentence.cells s0) (Sentence.count s0 + 3 * Z.of_nat n)
              ∈ knowledge st
            ∧ single (Sentence.Sentence (Sentence.cells s0)
                        (Sentence.count s0 + 3 * Z.of_nat n))).
  { induction n as [|n [IHin IHs]].
    - rewrite Z.mul_0_r, Z.add_0_r, sentence_eta. done.
    - destruct (Hstep _ IHin IHs) as [Hin Hs]. simpl in Hin, Hs.
      replace (Sentence.count s0 + 3 * Z.of_nat (S n))
        with (Sentence.count s0 + 3 * Z.of_nat n + 3) by lia. done. }
  destruct (count_bounded (knowledge st)) as [bound Hbound].
  destruct (Hiter (Z.to_nat (bound - Sentence.count s0 + 1))) as [Hin _].
  apply Hbound in Hin. simpl in Hin. lia.
Qed.

Lemma looping_pass st : looping st → (pass st).2 = true ∧ looping (pass st).1.
Proof.
  intros Hl. pose proof (looping_infers st Hl) as Hinf.
  destruct Hl as (H1 & H4 & (s0 & Hs0 & Hsingle0) & Hall).
  assert (Hset : settle st = (st, false)).
  { apply settle_nothing. intros s Hs. by apply looping_knows_nothing, Hall. }
  assert (Hkb : knowledge (pass st).1 = knowledge st ++ infer (knowledge st)).
  { by rewrite pass_knowledge, Hset. }
  split.
  - rewrite pass_changed, Hset. simpl. by apply bool_decide_eq_true.
  - unfold looping. rewrite Hkb. split; [apply elem_of_app; by left|].
    split; [apply elem_of_app; by left|].
    split; [exists s0; split; [apply elem_of_app; by left | done]|].
    intros s [Hs | Hs]%elem_of_app; [by apply Hall|].
    apply infer_sound in Hs as (A & B & HA & HB & -> & Hres & _).
    destruct (looping_resolvable A B (Hall A HA) (Hall B HB) Hres) as [HdA HsB].
    left. by apply (double_single_resolvent A B).
Qed.

Lemma looping_state_looping : looping looping_state.
Proof.
  unfold looping, looping_state. simpl. split; [left|]. split; [right; left|].
  split.
  - exists (Sentence.Sentence {[(0, 0)]} 2). split; [right; right; left|].
    split; [by left | done].
  - intros s Hs.
    apply elem_of_cons in Hs as [-> | Hs]; [right; apply double_1|].
    apply elem_of_cons in Hs as [-> | Hs]; [right; apply double_4|].
    apply elem_of_cons in Hs as [-> | Hs]; [|by inversion Hs].
    left. split; [by left | done].
Qed.

Lemma looping_never_returns fuel st : looping st → update_knowledge fuel st = None.
Proof.
  revert st. induction fuel as [|fuel IH]; intros st Hl; [done|].
  simpl. destruct (looping_pass st Hl) as [-> Hl']. by apply IH.
Qed.

(** C3, refuted as stated.  From [looping_state], a finite knowledge base
    on a 1 by 2 board with empty sets of safe cells and mines, every pass
    appends new sentences, so no number of passes makes the loop exit. *)
Lemma update_knowledge_diverges :
  length (knowledge looping_state) = 3%nat
  ∧ safes looping_state = ∅ ∧ mines looping_state = ∅
  ∧ ∀ fuel, update_knowledge fuel looping_state = None.
Proof.
  split_and!; try done.
  intros fuel. apply looping_never_returns, looping_state_looping.
Qed.

(** ** The random move *)

Lemma elem_of_choices st c : c ∈ choices st ↔ eligible st c.
Proof.
  unfold choices, eligible, range. rewrite list_elem_of_bind. split.
  - intros (i & (j & Hc & Hj)%list_elem_of_bind & Hi).
    apply elem_of_seqZ in Hi, Hj.
    destruct (bool_decide ((i, j) ∉ moves_made st)) eqn:H1;
      destruct (bool_decide ((i, j) ∉ mines st)) eqn:H2; simpl in Hc;
      try (by inversion Hc).
    apply list_elem_of_singleton in Hc as ->.
    apply bool_decide_eq_true in H1, H2. simpl. repeat split; try done; lia.
  - destruct c as [i j]. simpl. intros (Hi & Hj & H1 & H2).
    exists i. split; [|apply elem_of_seqZ; lia].
    apply list_elem_of_bind. exists j. split; [|apply elem_of_seqZ; lia].
    rewrite !bool_decide_eq_true_2 by done. simpl. left.
Qed.

Lemma NoDup_choices st : NoDup (choices st).
Proof.
  unfold choices, range. apply NoDup_bind; [| |apply NoDup_seqZ].
  - intros i1 i2 c _ _ (j1 & H1 & _)%list_elem_of_bind (j2 & H2 & _)%list_elem_of_bind.
    repeat case_match; try (by inversion H1); try (by inversion H2).
    apply list_elem_of_singleton in H1, H2. congruence.
  - intros i _. apply NoDup_bind; [| |apply NoDup_seqZ].
    + intros j1 j2 c _ _ H1 H2.
      repeat case_match; try (by inversion H1); try (by inversion H2).
      apply list_elem_of_singleton in H1, H2. congruence.
    + intros j _. case_match; [apply NoDup_singleton | apply NoDup_nil_2].
Qed.

Lemma make_random_move_eq raw st :
  make_random_move raw st = choices st !! (raw `mod` length (choices st))%nat.
Proof.
  unfold make_random_move, random_choice. by destruct (choices st).
Qed.

(** C8. [make_random_move] returns [None] exactly when no cell of the
    board is left that was neither played nor marked as a mine.
    Otherwise it returns such a cell, whatever the random draw.  The draw
    is reduced to an index below the number [n] of those cells, and each
    of them is returned for exactly one index: a uniform draw of the index
    gives each eligible cell the probability [1/n].  On a 3 by 3 board
    with eight cells played and the ninth a known mine, it returns
    [None]. *)
Theorem make_random_move_uniform (st : t) :
  (∀ raw, make_random_move raw st = None ↔ ∀ c, ¬ eligible st c)
  ∧ (∀ raw c, make_random_move raw st = Some c → eligible st c)
  ∧ (∀ raw, (∃ c, eligible st c) → ∃ c, make_random_move raw st = Some c)
  ∧ (∀ raw, make_random_move raw st
            = make_random_move (raw `mod` length (choices st))%nat st)
  ∧ (∀ c, eligible st c →
       ∃ k, (k < length (choices st))%nat
            ∧ make_random_move k st = Some c
            ∧ ∀ k', (k' < length (choices st))%nat →
                    make_random_move k' st = Some c → k' = k)
  ∧ (∀ raw, make_random_move raw
              (AI 3 3 {[(0, 0); (0, 1); (0, 2); (1, 0); (1, 1); (1, 2); (2, 0); (2, 1)]}
                  {[(2, 2)]} ∅ []) = None).
Proof.
  assert (Hsome : ∀ raw, choices st ≠ [] →
            ∃ c, make_random_move raw st = Some c).
  { intros raw Hne. rewrite make_random_move_eq.
    apply lookup_lt_is_Some_2. apply Nat.mod_upper_bound.
    by destruct (choices st). }
  split_and!.
  - intros raw. split.
    + intros Hnone c Hc. apply elem_of_choices in Hc.
      destruct (Hsome raw) as [c' Hc']; [|congruence].
      intros Hnil. rewrite Hnil in Hc. by inversion Hc.
    + intros Hno. unfold make_random_move.
      destruct (choices st) as [|c l] eqn:Hch; [done|].
      exfalso. apply (Hno c), elem_of_choices. rewrite Hch. left.
  - intros raw c Hc. apply elem_of_choices. rewrite make_random_move_eq in Hc.
    apply list_elem_of_lookup. eauto.
  - intros raw [c Hc]. apply Hsome. apply elem_of_choices in Hc.
    intros Hnil. rewrite Hnil in Hc. by inversion Hc.
  - intros raw. rewrite !make_random_move_eq. by rewrite Nat.Div0.mod_mod.
  - intros c Hc. apply elem_of_choices, list_elem_of_lookup in Hc as [k Hk].
    assert (Hlt : (k < length (choices st))%nat) by (apply lookup_lt_is_Some; eauto).
    exists k. split; [done|]. split.
    + by rewrite make_random_move_eq, Nat.mod_small.
    + intros k' Hlt' Hk'. rewrite make_random_move_eq, Nat.mod_small in Hk' by done.
      apply (NoDup_lookup _ _ _ _ (NoDup_choices st) Hk' Hk).
  - intros raw. vm_compute. reflexivity.
Qed.

(** ** The board *)

Lemma elem_of_grid h w c : c ∈ grid h w ↔ 0 ≤ c.1 < h ∧ 0 ≤ c.2 < w.
Proof.
  unfold grid, range. rewrite elem_of_list_to_set, list_elem_of_bind. split.
  - intros (i & (j & Hc%list_elem_of_singleton & Hj)%list_elem_of_bind & Hi).
    apply elem_of_seqZ in Hi, Hj. subst c. simpl. lia.
  - destruct c as [i j]. simpl. intros [Hi Hj].
    exists i. split; [|apply elem_of_seqZ; lia].
    apply list_elem_of_bind. exists j. split; [left | apply elem_of_seqZ; lia].
Qed.

Lemma length_pairs (l1 l2 : list Z) :
  length (i ← l1; j ← l2; [(i, j)]) = (length l1 * length l2)%nat.
Proof.
  assert (Hrow : ∀ i : Z, length (j ← l2; [(i, j)]) = length l2).
  { intros i. induction l2 as [|j l2 IH]; [done|]. rewrite bind_cons. simpl.
    by rewrite IH. }
  induction l1 as [|i l1 IH]; [done|].
  rewrite bind_cons, length_app, Hrow, IH. simpl. lia.
Qed.

Lemma size_grid h w : Z.of_nat (size (grid h w)) = Z.max 0 h * Z.max 0 w.
Proof.
  unfold grid, range. rewrite size_list_to_set.
  - rewrite length_pairs, !length_seqZ. lia.
  - apply NoDup_bind; [| |apply NoDup_seqZ].
    + intros i1 i2 c _ _ (j1 & H1 & _)%list_elem_of_bind (j2 & H2 & _)%list_elem_of_bind.
      apply list_elem_of_singleton in H1, H2. congruence.
    + intros i _. apply NoDup_bind; [| |apply NoDup_seqZ].
      * intros j1 j2 c _ _ H1 H2. apply list_elem_of_singleton in H1, H2. congruence.
      * intros j _. apply NoDup_singleton.
Qed.

Lemma board_ok_size h w ms b :
  board_ok h w ms b → 0 ≤ Z.of_nat (size ms) ≤ Z.max 0 h * Z.max 0 w.
Proof.
  intros [Hin _]. rewrite <- size_grid. split; [lia|].
  apply inj_le, subseteq_size. intros c Hc. by apply elem_of_grid, Hin.
Qed.

(** A board that is not full has a cell without a mine. *)
Lemma board_ok_free h w ms b :
  board_ok h w ms b → Z.of_nat (size ms) < Z.max 0 h * Z.max 0 w →
  ∃ c, 0 ≤ c.1 < h ∧ 0 ≤ c.2 < w ∧ c ∉ ms.
Proof.
  intros [Hin _] Hlt. rewrite <- size_grid in Hlt.
  assert (Hsub : ms ⊆ grid h w) by (intros c Hc; by apply elem_of_grid, Hin).
  destruct (size_pos_elem_of (grid h w ∖ ms)) as [c Hc].
  { rewrite size_difference by done. lia. }
  apply elem_of_difference in Hc as [Hc Hnot]. apply elem_of_grid in Hc.
  exists c. tauto.
Qed.

Lemma getitem_nonneg {A : Type} (l : list A) (i : Z) :
  0 ≤ i → getitem l i = l !! Z.to_nat i.
Proof. intros Hi. unfold getitem. by rewrite (proj2 (Z.leb_le 0 i) Hi). Qed.

Lemma get_nonneg b i j :
  0 ≤ i → 0 ≤ j →
  Minesweeper.get b i j = b !! Z.to_nat i ≫= λ row, row !! Z.to_nat j.
Proof.
  intros Hi Hj. unfold Minesweeper.get. rewrite getitem_nonneg by done.
  destruct (b !! Z.to_nat i); simpl; [by apply getitem_nonneg | done].
Qed.

Lemma board_ok_empty h w : board_ok h w ∅ (Minesweeper.empty_board h w).
Proof.
  split; [set_solver|]. intros i j Hi Hj. rewrite get_nonneg by lia.
  unfold Minesweeper.empty_board, range.
  assert (Hrow : ∀ (n : Z) (k : Z) (f : Z → bool), 0 ≤ k < n →
            map f (seqZ 0 n) !! Z.to_nat k = Some (f k)).
  { intros n k f Hk. change (map f (seqZ 0 n)) with (f <$> seqZ 0 n).
    rewrite list_lookup_fmap, lookup_seqZ_lt by lia. simpl. f_equal. f_equal. lia. }
  change (map ?f ?l) with (f <$> l).
  rewrite list_lookup_fmap, lookup_seqZ_lt by lia. simpl.
  rewrite list_lookup_fmap, lookup_seqZ_lt by lia. simpl.
  by rewrite bool_decide_eq_false_2 by set_solver.
Qed.

Lemma board_ok_set_true h w ms b i j :
  0 ≤ i < h → 0 ≤ j < w →
  board_ok h w ms b → board_ok h w (ms ∪ {[(i, j)]}) (Minesweeper.set_true b i j).
Proof.
  intros Hi Hj [Hin Hget]. split.
  - intros c [Hc | Hc%elem_of_singleton]%elem_of_union; [by apply Hin | by subst].
  - intros i' j' Hi' Hj'. specialize (Hget i' j' Hi' Hj') as Hget'.
    pose proof (Hget i j Hi Hj) as Hij.
    rewrite get_nonneg in Hget', Hij |- * by lia.
    unfold Minesweeper.set_true.
    destruct (b !! Z.to_nat i) as [row|] eqn:Hrow; [|done]. simpl in Hij.
    assert (Hlen : (Z.to_nat i < length b)%nat) by (apply lookup_lt_is_Some; eauto).
    assert (Hlenj : (Z.to_nat j < length row)%nat) by (apply lookup_lt_is_Some; eauto).
    destruct (decide (i' = i)) as [-> | Hne].
    + rewrite list_lookup_insert_eq by done. simpl.
      rewrite Hrow in Hget'. simpl in Hget'.
      destruct (decide (j' = j)) as [-> | Hnej].
      * rewrite list_lookup_insert_eq by done.
        by rewrite bool_decide_eq_true_2 by set_solver.
      * rewrite list_lookup_insert_ne by lia. rewrite Hget'. f_equal.
        apply bool_decide_ext. rewrite elem_of_union, elem_of_singleton.
        split; [by left|]. intros [? | [= ?]]; done.
    + rewrite list_lookup_insert_ne by lia. rewrite Hget'. f_equal.
      apply bool_decide_ext. rewrite elem_of_union, elem_of_singleton.
      split; [by left|]. intros [? | [= ? ?]]; done.
Qed.

Lemma randrange_range raw n i : randrange raw n = Some i → 0 ≤ i < n.
Proof.
  unfold randrange. destruct (Z.ltb_spec 0 n); [|done].
  intros [= <-]. by apply Z.mod_pos_bound.
Qed.

Lemma randrange_pos raw n : 0 < n → randrange raw n = Some (raw `mod` n).
Proof. intros Hn. unfold randrange. by rewrite (proj2 (Z.ltb_lt 0 n) Hn). Qed.

Lemma place_eq h w target tape ms b :
  Minesweeper.place h w target tape ms b =
  if Z.of_nat (size ms) =? target then Done (ms, b)
  else
    match tape with
    | [] => Starved
    | (ri, rj) :: tape =>
        match randrange ri h with
        | None => Raised
        | Some i =>
            match randrange rj w with
            | None => Raised
            | Some j =>
                match Minesweeper.get b i j with
                | None => Raised
                | Some true => Minesweeper.place h w target tape ms b
                | Some false =>
                    Minesweeper.place h w target tape (ms ∪ {[(i, j)]})
                      (Minesweeper.set_true b i j)
                end
            end
        end
    end.
Proof. by destruct tape. Qed.

(** When the loop exits, the number of mines is the one asked for and the
    field agrees with the set of mines. *)
Lemma place_done h w target tape :
  ∀ ms b r, board_ok h w ms b →
    Minesweeper.place h w target tape ms b = Done r →
    board_ok h w r.1 r.2 ∧ Z.of_nat (size r.1) = target.
Proof.
  induction tape as [|[ri rj] tape IH]; intros ms b r Hok; rewrite place_eq.
  - destruct (Z.eqb_spec (Z.of_nat (size ms)) target); [|done].
    by intros [= <-].
  - destruct (Z.eqb_spec (Z.of_nat (size ms)) target); [by intros [= <-]|].
    destruct (randrange ri h) as [i|] eqn:Hi; [|done].
    destruct (randrange rj w) as [j|] eqn:Hj; [|done].
    apply randrange_range in Hi, Hj.
    destruct (Minesweeper.get b i j) as [[|]|]; [by apply IH | | done].
    apply IH. by apply board_ok_set_true.
Qed.

(** With fewer mines than asked for and room left on the board, some
    random draws make the loop exit. *)
Lemma place_can_finish h w target (n : nat) :
  ∀ ms b, board_ok h w ms b →
    Z.of_nat (size ms) + Z.of_nat n = target →
    target ≤ Z.max 0 h * Z.max 0 w →
    ∃ tape r, Minesweeper.place h w target tape ms b = Done r.
Proof.
  induction n as [|n IH]; intros ms b Hok Hn Hle.
  - exists [], (ms, b). rewrite place_eq.
    by rewrite (proj2 (Z.eqb_eq _ _)) by lia.
  - destruct (board_ok_free h w ms b Hok) as ([i j] & Hi & Hj & Hfree); [lia|].
    simpl in Hi, Hj.
    assert (Hsz : size (ms ∪ {[(i, j)]}) = S (size ms)).
    { rewrite size_union, size_singleton by set_solver. lia. }
    destruct (IH (ms ∪ {[(i, j)]}) (Minesweeper.set_true b i j)) as (tape & r & Hr).
    + by apply board_ok_set_true.
    + lia.
    + done.
    + exists ((i, j) :: tape), r. rewrite place_eq.
      rewrite (proj2 (Z.eqb_neq _ _)) by lia.
      rewrite !randrange_pos, !Z.mod_small by lia.
      destruct Hok as [_ Hget]. rewrite Hget by done.
      by rewrite bool_decide_eq_false_2.
Qed.

(** The same from any point of the loop: whatever was drawn so far, some
    further draws make the loop exit. *)
Lemma place_extend h w target tape :
  ∀ ms b, board_ok h w ms b →
    Z.of_nat (size ms) ≤ target ≤ Z.max 0 h * Z.max 0 w →
    ∃ tape' r, Minesweeper.place h w target (tape ++ tape') ms b = Done r.
Proof.
  induction tape as [|[ri rj] tape IH]; intros ms b Hok Hle.
  - apply (place_can_finish h w target (Z.to_nat (target - Z.of_nat (size ms))));
      [done | lia | lia].
  - destruct (Z.eqb_spec (Z.of_nat (size ms)) target) as [Heq | Hne].
    { exists [], (ms, b). rewrite place_eq. by rewrite (proj2 (Z.eqb_eq _ _)). }
    assert (0 < h ∧ 0 < w) as [Hh Hw] by nia.
    pose proof (Z.mod_pos_bound ri h Hh). pose proof (Z.mod_pos_bound rj w Hw).
    destruct (Minesweeper.get b (ri `mod` h) (rj `mod` w)) as [v|] eqn:Hv.
    2: { destruct Hok as [_ Hget]. rewrite Hget in Hv by done. done. }
    destruct v.
    + destruct (IH ms b Hok Hle) as (tape' & r & Hr). exists tape', r.
      rewrite <- app_comm_cons, place_eq.
      rewrite (proj2 (Z.eqb_neq _ _)) by done.
      rewrite !randrange_pos by done. by rewrite Hv.
    + assert (Hfree : (ri `mod` h, rj `mod` w) ∉ ms).
      { destruct Hok as [_ Hget]. rewrite Hget in Hv by done.
        injection Hv as Hv. by apply bool_decide_eq_false in Hv. }
      assert (Hsz : size (ms ∪ {[(ri `mod` h, rj `mod` w)]}) = S (size ms)).
      { rewrite size_union, size_singleton by set_solver. lia. }
      destruct (IH (ms ∪ {[(ri `mod` h, rj `mod` w)]})
                   (Minesweeper.set_true b (ri `mod` h) (rj `mod` w)))
        as (tape' & r & Hr); [by apply board_ok_set_true | lia |].
      exists tape', r.
      rewrite <- app_comm_cons, place_eq.
      rewrite (proj2 (Z.eqb_neq _ _)) by done.
      rewrite !randrange_pos by done. by rewrite Hv.
Qed.

Lemma init_done h w target tape g :
  Minesweeper.init h w target tape = Done g →
  Minesweeper.place h w target tape ∅ (Minesweeper.empty_board h w)
  = Done (Minesweeper.mines g, Minesweeper.board g).
Proof.
  unfold Minesweeper.init.
  destruct (Minesweeper.place h w target tape ∅ (Minesweeper.empty_board h w))
    as [[ms b]| |]; [|done|done].
  by intros [= <-].
Qed.

(** The constructor returns only when the number of mines asked for is
    between 0 and the number of cells. *)
Lemma init_done_range h w target tape g :
  Minesweeper.init h w target tape = Done g →
  0 ≤ target ≤ Z.max 0 h * Z.max 0 w.
Proof.
  intros Hg%init_done.
  apply place_done in Hg as [Hok Hsz]; [|apply board_ok_empty].
  apply board_ok_size in Hok. simpl in *. lia.
Qed.

(** C10, refuted as stated.  With [mines = -1] on a 1 by 1 board the
    number of mines asked for is at most the number of cells, and no
    sequence of random draws makes the constructor return. *)
Lemma init_negative_mines_never_returns :
  -1 ≤ 1 * 1 ∧ ∀ tape g, Minesweeper.init 1 1 (-1) tape ≠ Done g.
Proof.
  split; [lia|]. intros tape g Hg. apply init_done_range in Hg. lia.
Qed.

(** C10, amended.  Let the number of cells be [height * width] when both
    are positive and 0 otherwise.  When [0 <= mines <= cells], the
    constructor can return: whatever was drawn so far, some further random
    draws make the placement loop exit.  Otherwise no sequence of draws
    makes it return.  When it returns, [self.mines] has exactly [mines]
    elements, all on the board, and [board[i][j]] is [True] exactly for
    the cells of [self.mines]. *)
Theorem init_returns (h w target : Z) :
  (0 ≤ target ≤ Z.max 0 h * Z.max 0 w →
     ∀ tape, ∃ tape' g, Minesweeper.init h w target (tape ++ tape') = Done g)
  ∧ (¬ (0 ≤ target ≤ Z.max 0 h * Z.max 0 w) →
     ∀ tape g, Minesweeper.init h w target tape ≠ Done g)
  ∧ (∀ tape g, Minesweeper.init h w target tape = Done g →
       Minesweeper.height g = h ∧ Minesweeper.width g = w
       ∧ Z.of_nat (size (Minesweeper.mines g)) = target
       ∧ (∀ c, c ∈ Minesweeper.mines g → 0 ≤ c.1 < h ∧ 0 ≤ c.2 < w)
       ∧ ∀ i j, 0 ≤ i < h → 0 ≤ j < w →
                Minesweeper.get (Minesweeper.board g) i j
                = Some (bool_decide ((i, j) ∈ Minesweeper.mines g))).
Proof.
  split_and!.
  - intros Hle tape.
    destruct (place_extend h w target tape ∅ (Minesweeper.empty_board h w))
      as (tape' & [ms b] & Hr); [apply board_ok_empty | rewrite size_empty; lia |].
    exists tape', (Minesweeper.Game h w ms b ∅).
    unfold Minesweeper.init. by rewrite Hr.
  - intros Hnot tape g Hg. apply Hnot. by apply (init_done_range h w target tape g).
  - intros tape g Hg.
    assert (Hdims : Minesweeper.height g = h ∧ Minesweeper.width g = w).
    { unfold Minesweeper.init in Hg.
      destruct (Minesweeper.place h w target tape ∅ (Minesweeper.empty_board h w))
        as [[ms b]| |]; [|done|done].
      by injection Hg as <-. }
    apply init_done in Hg.
    apply place_done in Hg as [[Hin Hget] Hsz]; [|apply board_ok_empty].
    simpl in *. tauto.
Qed.

(** ** The marking loops in closed form *)

Lemma strike_safes_empty s : strike_safes ∅ s = s.
Proof.
  unfold strike_safes. rewrite difference_empty_L. apply sentence_eta.
Qed.

Lemma strike_mines_empty s : strike_mines ∅ s = s.
Proof.
  unfold strike_mines.
  rewrite difference_empty_L, intersection_empty_r_L, size_empty, Z.sub_0_r.
  apply sentence_eta.
Qed.

Lemma mark_safe_strike c s : Sentence.mark_safe c s = strike_safes {[c]} s.
Proof.
  unfold strike_safes. rewrite <- mark_safe_cells, <- (mark_safe_count c s).
  by rewrite sentence_eta.
Qed.

Lemma mark_mine_strike c s : Sentence.mark_mine c s = strike_mines {[c]} s.
Proof.
  unfold strike_mines, Sentence.mark_mine. case_bool_decide as Hc.
  - f_equal. assert (Sentence.cells s ∩ {[c]} = {[c]}) as -> by set_solver.
    by rewrite size_singleton.
  - assert (Sentence.cells s ∖ {[c]} = Sentence.cells s) as -> by set_solver.
    assert (Sentence.cells s ∩ {[c]} = ∅) as -> by set_solver.
    rewrite size_empty, Z.sub_0_r. by rewrite sentence_eta.
Qed.

Lemma strike_safes_twice D1 D2 s :
  strike_safes D2 (strike_safes D1 s) = strike_safes (D1 ∪ D2) s.
Proof. unfold strike_safes. simpl. f_equal. set_solver. Qed.

Lemma strike_mines_twice D1 D2 s :
  D1 ## D2 →
  strike_mines D2 (strike_mines D1 s) = strike_mines (D1 ∪ D2) s.
Proof.
  intros Hd. unfold strike_mines. simpl. f_equal; [set_solver|].
  assert (Hsplit : Sentence.cells s ∩ (D1 ∪ D2)
                   = (Sentence.cells s ∩ D1) ∪ (Sentence.cells s ∖ D1) ∩ D2)
    by set_solver.
  assert (Hsz : size (Sentence.cells s ∩ (D1 ∪ D2))
                = (size (Sentence.cells s ∩ D1)
                   + size ((Sentence.cells s ∖ D1) ∩ D2))%nat).
  { rewrite Hsplit. apply size_union. set_solver. }
  lia.
Qed.

(** The loop over the new safe cells, for any order of visit: the cells
    are added to [safes], those that were not yet known safe are removed
    from every sentence, and the flag is raised when there was one. *)
Lemma mark_safes_closed (l : list cell) :
  ∀ st ch,
    foldl mark_if_new_safe (st, ch) l =
    (AI (height st) (width st) (moves_made st) (mines st)
        (safes st ∪ list_to_set l)
        (map (strike_safes (list_to_set l ∖ safes st)) (knowledge st)),
     ch || bool_decide (¬ list_to_set l ⊆ safes st)).
Proof.
  induction l as [|c l IH]; intros st ch.
  - simpl. rewrite union_empty_r_L.
    assert ((∅ : gset cell) ∖ safes st = ∅) as -> by set_solver.
    assert (map (strike_safes ∅) (knowledge st) = knowledge st) as ->.
    { induction (knowledge st) as [|s kb IHkb]; [done|].
      simpl. by rewrite strike_safes_empty, IHkb. }
    rewrite bool_decide_eq_false_2 by (intros H; apply H; set_solver).
    rewrite orb_false_r. by destruct st.
  - cbn [foldl]. unfold mark_if_new_safe at 2. simpl fst.
    case_bool_decide as Hc.
    + rewrite IH, !list_to_set_cons.
      assert (safes st ∪ ({[c]} ∪ list_to_set l) = safes st ∪ list_to_set l) as ->
        by set_solver.
      assert (({[c]} ∪ list_to_set l) ∖ safes st = list_to_set l ∖ safes st) as ->
        by set_solver.
      do 2 f_equal. apply bool_decide_ext. set_solver.
    + rewrite IH, !list_to_set_cons. simpl.
      assert (safes st ∪ {[c]} ∪ list_to_set l = safes st ∪ ({[c]} ∪ list_to_set l)) as ->
        by set_solver.
      assert (map (strike_safes (list_to_set l ∖ (safes st ∪ {[c]})))
                (map (Sentence.mark_safe c) (knowledge st))
              = map (strike_safes (({[c]} ∪ list_to_set l) ∖ safes st)) (knowledge st)) as ->.
      { rewrite map_map. apply map_ext. intros s.
        rewrite mark_safe_strike, strike_safes_twice.
        f_equal. apply set_eq. intros x.
        destruct (decide (x = c)) as [-> | Hx]; set_solver. }
      rewrite (bool_decide_eq_true_2 (_ ⊈ _)) by set_solver.
      by rewrite orb_true_r.
Qed.

Lemma mark_mines_closed (l : list cell) :
  ∀ st ch,
    foldl mark_if_new_mine (st, ch) l =
    (AI (height st) (width st) (moves_made st)
        (mines st ∪ list_to_set l) (safes st)
        (map (strike_mines (list_to_set l ∖ mines st)) (knowledge st)),
     ch || bool_decide (¬ list_to_set l ⊆ mines st)).
Proof.
  induction l as [|c l IH]; intros st ch.
  - simpl. rewrite union_empty_r_L.
    assert ((∅ : gset cell) ∖ mines st = ∅) as -> by set_solver.
    assert (map (strike_mines ∅) (knowledge st) = knowledge st) as ->.
    { induction (knowledge st) as [|s kb IHkb]; [done|].
      simpl. by rewrite strike_mines_empty, IHkb. }
    rewrite bool_decide_eq_false_2 by (intros H; apply H; set_solver).
    rewrite orb_false_r. by destruct st.
  - cbn [foldl]. unfold mark_if_new_mine at 2. simpl fst.
    case_bool_decide as Hc.
    + rewrite IH, !list_to_set_cons.
      assert (mines st ∪ ({[c]} ∪ list_to_set l) = mines st ∪ list_to_set l) as ->
        by set_solver.
      assert (({[c]} ∪ list_to_set l) ∖ mines st = list_to_set l ∖ mines st) as ->
        by set_solver.
      do 2 f_equal. apply bool_decide_ext. set_solver.
    + rewrite IH, !list_to_set_cons. simpl.
      assert (mines st ∪ {[c]} ∪ list_to_set l = mines st ∪ ({[c]} ∪ list_to_set l)) as ->
        by set_solver.
      assert (map (strike_mines (list_to_set l ∖ (mines st ∪ {[c]})))
                (map (Sentence.mark_mine c) (knowledge st))
              = map (strike_mines (({[c]} ∪ list_to_set l) ∖ mines st)) (knowledge st)) as ->.
      { rewrite map_map. apply map_ext. intros s.
        rewrite mark_mine_strike, strike_mines_twice by set_solver.
        f_equal. apply set_eq. intros x.
        destruct (decide (x = c)) as [-> | Hx]; set_solver. }
      rewrite (bool_decide_eq_true_2 (_ ⊈ _)) by set_solver.
      by rewrite orb_true_r.
Qed.

Lemma mark_new_safes_closed X st ch :
  mark_new_safes X (st, ch) =
  (AI (height st) (width st) (moves_made st) (mines st) (safes st ∪ X)
      (map (strike_safes (X ∖ safes st)) (knowledge st)),
   ch || bool_decide (¬ X ⊆ safes st)).
Proof.
  change (mark_new_safes X (st, ch))
    with (foldl mark_if_new_safe (st, ch) (elements X)).
  by rewrite mark_safes_closed, list_to_set_elements_L.
Qed.

Lemma mark_new_mines_closed X st ch :
  mark_new_mines X (st, ch) =
  (AI (height st) (width st) (moves_made st) (mines st ∪ X) (safes st)
      (map (strike_mines (X ∖ mines st)) (knowledge st)),
   ch || bool_decide (¬ X ⊆ mines st)).
Proof.
  change (mark_new_mines X (st, ch))
    with (foldl mark_if_new_mine (st, ch) (elements X)).
  by rewrite mark_mines_closed, list_to_set_elements_L.
Qed.

(** X1. The two marking loops of a pass give the same state and the same
    flag in whatever order the cells of the set are visited, repeated
    visits included. *)
Theorem marking_ignores_order (l : list cell) (sc : t * bool) :
  foldl mark_if_new_safe sc l = mark_new_safes (list_to_set l) sc
  ∧ foldl mark_if_new_mine sc l = mark_new_mines (list_to_set l) sc.
Proof.
  destruct sc as [st ch]. split.
  - by rewrite mark_safes_closed, mark_new_safes_closed.
  - by rewrite mark_mines_closed, mark_new_mines_closed.
Qed.

Lemma settle_eq (st : t) :
  settle st =
  (AI (height st) (width st) (moves_made st)
      (mines st ∪ (collect (knowledge st)).2)
      (safes st ∪ (collect (knowledge st)).1)
      (drop_empty
         (map (strike_mines ((collect (knowledge st)).2 ∖ mines st))
            (map (strike_safes ((collect (knowledge st)).1 ∖ safes st))
               (knowledge st)))),
   bool_decide (¬ (collect (knowledge st)).1 ⊆ safes st)
   || bool_decide (¬ (collect (knowledge st)).2 ⊆ mines st)).
Proof.
  unfold settle. destruct (collect (knowledge st)) as [ns nm]. simpl.
  rewrite mark_new_safes_closed, mark_new_mines_closed. reflexivity.
Qed.

(** X2. The first half of a pass in closed form: the cells that some
    sentence knows to be safe are added to [safes] and those that it
    knows to be mines to [mines]; the cells that are new to [safes] are
    removed from every sentence, then those that are new to [mines] are
    removed and counted off; the sentences left empty are dropped; the
    flag tells whether some cell was new. *)
Theorem settle_closed_form (st : t) :
  let new_safes := (collect (knowledge st)).1 in
  let new_mines := (collect (knowledge st)).2 in
  (∀ c, c ∈ new_safes ↔ ∃ s, s ∈ knowledge st ∧ c ∈ Sentence.known_safes s)
  ∧ (∀ c, c ∈ new_mines ↔ ∃ s, s ∈ knowledge st ∧ c ∈ Sentence.known_mines s)
  ∧ settle st =
    (AI (height st) (width st) (moves_made st)
        (mines st ∪ new_mines) (safes st ∪ new_safes)
        (drop_empty
           (map (strike_mines (new_mines ∖ mines st))
              (map (strike_safes (new_safes ∖ safes st)) (knowledge st)))),
     bool_decide (¬ new_safes ⊆ safes st) || bool_decide (¬ new_mines ⊆ mines st)).
Proof.
  cbv zeta. split_and!.
  - intros c. apply elem_of_collect_safes.
  - intros c. apply elem_of_collect_mines.
  - apply settle_eq.
Qed.

(** ** The state that [update_knowledge] returns *)

Lemma map_strike_empty kb :
  map (strike_mines ∅) (map (strike_safes ∅) kb) = kb.
Proof.
  induction kb as [|s kb IHkb]; [done|].
  simpl. by rewrite strike_safes_empty, strike_mines_empty, IHkb.
Qed.

(** A pass that reports no change only removed the empty sentences. *)
Lemma pass_quiet (st : t) :
  (pass st).2 = false →
  (pass st).1 = set_knowledge (drop_empty (knowledge st)) st
  ∧ (collect (knowledge st)).1 ⊆ safes st
  ∧ (collect (knowledge st)).2 ⊆ mines st
  ∧ infer (drop_empty (knowledge st)) = [].
Proof.
  rewrite pass_changed. intros [Hs Hi]%orb_false_iff.
  rewrite settle_eq in Hs. simpl in Hs.
  apply orb_false_iff in Hs as [H1 H2].
  apply bool_decide_eq_false in H1, H2.
  apply dec_stable in H1, H2.
  apply bool_decide_eq_false in Hi. apply dec_stable in Hi.
  assert (Hset : (settle st).1 = set_knowledge (drop_empty (knowledge st)) st).
  { rewrite settle_eq. simpl. unfold set_knowledge. f_equal.
    - set_solver.
    - set_solver.
    - assert ((collect (knowledge st)).1 ∖ safes st = ∅) as -> by set_solver.
      assert ((collect (knowledge st)).2 ∖ mines st = ∅) as -> by set_solver.
      by rewrite map_strike_empty. }
  rewrite Hset in Hi. simpl in Hi. split_and!; try done.
  unfold pass. rewrite Hset. simpl. by rewrite Hi.
Qed.

Lemma known_safes_in_collect kb s :
  s ∈ kb → Sentence.known_safes s ⊆ (collect kb).1.
Proof. intros Hs c Hc. apply elem_of_collect_safes. by exists s. Qed.

Lemma known_mines_in_collect kb s :
  s ∈ kb → Sentence.known_mines s ⊆ (collect kb).2.
Proof. intros Hs c Hc. apply elem_of_collect_mines. by exists s. Qed.

Lemma drop_empty_idemp kb : drop_empty (drop_empty kb) = drop_empty kb.
Proof.
  apply drop_empty_id. intros s Hs. by apply elem_of_drop_empty in Hs as [? _].
Qed.

(** After a pass that reports no change, a further pass changes nothing. *)
Lemma pass_quiet_saturated (st : t) :
  (pass st).2 = false → saturated (pass st).1.
Proof.
  intros Hq. destruct (pass_quiet st Hq) as (Heq & Hs & Hm & Hinf).
  rewrite Heq. unfold saturated.
  assert (Hs' : (collect (drop_empty (knowledge st))).1 ⊆ safes st).
  { intros c (s & [_ Hin]%elem_of_drop_empty & Hc)%elem_of_collect_safes.
    apply Hs, elem_of_collect_safes. by exists s. }
  assert (Hm' : (collect (drop_empty (knowledge st))).2 ⊆ mines st).
  { intros c (s & [_ Hin]%elem_of_drop_empty & Hc)%elem_of_collect_mines.
    apply Hm, elem_of_collect_mines. by exists s. }
  assert (Hset : settle (set_knowledge (drop_empty (knowledge st)) st)
                 = (set_knowledge (drop_empty (knowledge st)) st, false)).
  { rewrite settle_eq. simpl.
    rewrite (bool_decide_eq_false_2 (¬ _ ⊆ safes st)) by (intros H; by apply H).
    rewrite (bool_decide_eq_false_2 (¬ _ ⊆ mines st)) by (intros H; by apply H).
    simpl. f_equal. unfold set_knowledge. f_equal.
    - set_solver.
    - set_solver.
    - assert ((collect (drop_empty (knowledge st))).1 ∖ safes st = ∅) as ->
        by set_solver.
      assert ((collect (drop_empty (knowledge st))).2 ∖ mines st = ∅) as ->
        by set_solver.
      rewrite map_strike_empty. apply drop_empty_idemp. }
  unfold pass. rewrite Hset. simpl. by rewrite Hinf.
Qed.

Lemma update_knowledge_saturated fuel st st' :
  update_knowledge fuel st = Some st' → saturated st'.
Proof.
  revert st. induction fuel as [|fuel IH]; intros st; simpl; [done|].
  destruct (pass st).2 eqn:Hch; [apply IH|].
  intros [= <-]. by apply pass_quiet_saturated.
Qed.

Lemma saturated_facts (st : t) :
  saturated st →
  (∀ s, s ∈ knowledge st →
        Sentence.cells s ≠ ∅
        ∧ Sentence.known_safes s ⊆ safes st
        ∧ Sentence.known_mines s ⊆ mines st)
  ∧ ∀ A B, A ∈ knowledge st → B ∈ knowledge st → resolvable A B →
           resolvent A B ∈ knowledge st.
Proof.
  intros Hsat. unfold saturated in Hsat.
  assert (Hq : (pass st).2 = false) by by rewrite Hsat.
  destruct (pass_quiet st Hq) as (Heq & Hs & Hm & Hinf).
  rewrite Hsat in Heq. simpl in Heq.
  assert (Hkb : knowledge st = drop_empty (knowledge st)).
  { rewrite Heq at 1. done. }
  rewrite <- Hkb in Hinf. split.
  - intros s Hin. split_and!.
    + rewrite Hkb in Hin. by apply elem_of_drop_empty in Hin as [? _].
    + etrans; [by apply known_safes_in_collect | done].
    + etrans; [by apply known_mines_in_collect | done].
  - intros A B HA HB Hres.
    destruct (infer_complete _ A B HA HB Hres) as [H | H]; [done|].
    rewrite Hinf in H. by inversion H.
Qed.

(** X3. Running [update_knowledge] again on the state it returned changes
    nothing: a single pass finds no change and the same state is
    returned, with any positive fuel. *)
Theorem update_knowledge_idempotent (fuel : nat) (st st' : t) :
  update_knowledge fuel st = Some st' →
  ∀ n, update_knowledge (S n) st' = Some st'.
Proof.
  intros Hu n. apply update_knowledge_saturated in Hu.
  unfold saturated in Hu. simpl. by rewrite Hu.
Qed.

Lemma update_knowledge_idempotent_witness :
  let A := Sentence.Sentence {[(0, 0); (0, 1); (0, 2)]} 1 in
  let B := Sentence.Sentence {[(0, 0); (0, 1)]} 1 in
  let st := AI 3 3 ∅ ∅ ∅ [A; B] in
  let st' := AI 3 3 ∅ ∅ {[(0, 2)]} [B; B] in
  update_knowledge 3 st = Some st' ∧ update_knowledge 1 st' = Some st'.
Proof.
  cbv zeta.
  assert (Hu : update_knowledge 3
    (AI 3 3 ∅ ∅ ∅ [Sentence.Sentence {[(0, 0); (0, 1); (0, 2)]} 1;
                   Sentence.Sentence {[(0, 0); (0, 1)]} 1])
    = Some (AI 3 3 ∅ ∅ {[(0, 2)]}
              [Sentence.Sentence {[(0, 0); (0, 1)]} 1;
               Sentence.Sentence {[(0, 0); (0, 1)]} 1]))
    by (vm_compute; reflexivity).
  split; [exact Hu|].
  exact (update_knowledge_idempotent 3 _ _ Hu 0%nat).
Defined.

(** X4. In the state that [update_knowledge] returns no sentence is
    empty, every cell that a sentence knows to be safe is in [safes],
    every cell that a sentence knows to be a mine is in [mines], and the
    knowledge base is closed under the inference rule: for two different
    sentences with the cells of one among the cells of the other and some
    cell left over, the derived sentence is in the knowledge base. *)
Theorem update_knowledge_result_saturated (fuel : nat) (st st' : t) :
  update_knowledge fuel st = Some st' →
  (∀ s, s ∈ knowledge st' →
        Sentence.cells s ≠ ∅
        ∧ Sentence.known_safes s ⊆ safes st'
        ∧ Sentence.known_mines s ⊆ mines st')
  ∧ ∀ A B, A ∈ knowledge st' → B ∈ knowledge st' →
           A ≠ B → Sentence.cells B ⊆ Sentence.cells A →
           Sentence.cells A ∖ Sentence.cells B ≠ ∅ →
           Sentence.Sentence (Sentence.cells A ∖ Sentence.cells B)
                             (Sentence.count A - Sentence.count B)
             ∈ knowledge st'.
Proof.
  intros Hu. apply update_knowledge_saturated, saturated_facts in Hu as [H1 H2].
  split; [exact H1|]. intros A B HA HB Hne Hsub Hcells.
  by apply (H2 A B).
Qed.

Lemma update_knowledge_result_saturated_witness :
  let A := Sentence.Sentence {[(0, 0); (0, 1); (0, 2)]} 2 in
  let B := Sentence.Sentence {[(0, 0); (0, 1)]} 1 in
  let st := AI 3 3 ∅ ∅ ∅ [A; B] in
  let st' := AI 3 3 ∅ {[(0, 2)]} ∅ [B; B] in
  update_knowledge 3 st = Some st'
  ∧ ∀ s, s ∈ knowledge st' →
         Sentence.cells s ≠ ∅
         ∧ Sentence.known_safes s ⊆ safes st'
         ∧ Sentence.known_mines s ⊆ mines st'.
Proof.
  cbv zeta.
  assert (Hu : update_knowledge 3
    (AI 3 3 ∅ ∅ ∅ [Sentence.Sentence {[(0, 0); (0, 1); (0, 2)]} 2;
                   Sentence.Sentence {[(0, 0); (0, 1)]} 1])
    = Some (AI 3 3 ∅ {[(0, 2)]} ∅
              [Sentence.Sentence {[(0, 0); (0, 1)]} 1;
               Sentence.Sentence {[(0, 0); (0, 1)]} 1]))
    by (vm_compute; reflexivity).
  split; [exact Hu|].
  exact (proj1 (update_knowledge_result_saturated 3 _ _ Hu)).
Defined.

(** X5. When no sentence mentions a known cell before the call, as in
    every state reached through the engine's methods, the state that
    [update_knowledge] returns holds no sentence that settles its cells:
    no count is 0 and no count equals the number of cells. *)
Theorem update_knowledge_leaves_no_certainty (fuel : nat) (st st' : t) :
  apart st →
  update_knowledge fuel st = Some st' →
  ∀ s, s ∈ knowledge st' →
       Sentence.count s ≠ 0
       ∧ Sentence.count s ≠ Z.of_nat (size (Sentence.cells s)).
Proof.
  intros Hap Hu s Hs.
  assert (Hap' : apart st').
  { by apply (update_knowledge_ind apart fuel st st' apart_pass). }
  apply update_knowledge_saturated, saturated_facts in Hu as [H1 _].
  destruct (H1 s Hs) as (Hne & Hsafe & Hmine). destruct (Hap' s Hs) as [Hd1 Hd2].
  apply set_choose_L in Hne as [c Hc]. split.
  - intros H0. apply (Hd1 c Hc), Hsafe.
    unfold Sentence.known_safes. by rewrite H0.
  - intros Hlen. apply (Hd2 c Hc), Hmine.
    unfold Sentence.known_mines. rewrite Hlen, Z.eqb_refl. simpl.
    assert (0 < size (Sentence.cells s))%nat.
    { apply Nat.neq_0_lt_0. intros Hz. apply size_empty_iff in Hz.
      apply (not_elem_of_empty (C:=gset cell) c). by rewrite <- Hz. }
    rewrite (proj2 (Z.ltb_lt 0 _)) by lia. done.
Qed.

Lemma update_knowledge_leaves_no_certainty_witness :
  let A := Sentence.Sentence {[(0, 0); (0, 1); (0, 2)]} 2 in
  let B := Sentence.Sentence {[(0, 0); (0, 1)]} 1 in
  let st := AI 3 3 ∅ ∅ ∅ [A; B] in
  let st' := AI 3 3 ∅ {[(0, 2)]} ∅ [B; B] in
  apart st ∧ update_knowledge 3 st = Some st'
  ∧ ∀ s, s ∈ knowledge st' →
         Sentence.count s ≠ 0
         ∧ Sentence.count s ≠ Z.of_nat (size (Sentence.cells s)).
Proof.
  cbv zeta.
  assert (Hap : apart
    (AI 3 3 ∅ ∅ ∅ [Sentence.Sentence {[(0, 0); (0, 1); (0, 2)]} 2;
                   Sentence.Sentence {[(0, 0); (0, 1)]} 1])).
  { intros s _. simpl. split; apply disjoint_empty_r. }
  assert (Hu : update_knowledge 3
    (AI 3 3 ∅ ∅ ∅ [Sentence.Sentence {[(0, 0); (0, 1); (0, 2)]} 2;
                   Sentence.Sentence {[(0, 0); (0, 1)]} 1])
    = Some (AI 3 3 ∅ {[(0, 2)]} ∅
              [Sentence.Sentence {[(0, 0); (0, 1)]} 1;
               Sentence.Sentence {[(0, 0); (0, 1)]} 1]))
    by (vm_compute; reflexivity).
  split; [exact Hap|]. split; [exact Hu|].
  exact (update_knowledge_leaves_no_certainty 3 _ _ Hap Hu).
Defined.

(** ** The safe move *)

(** X6. [make_safe_move] returns a cell of [safes] that is not in
    [moves_made], and returns [None] exactly when every safe cell was
    played. *)
Theorem make_safe_move_spec (st : t) :
  (∀ c, make_safe_move st = Some c → c ∈ safes st ∧ c ∉ moves_made st)
  ∧ (make_safe_move st = None ↔ safes st ⊆ moves_made st).
Proof.
  unfold make_safe_move. split.
  - intros c Hc. apply find_some in Hc as [Hin Hc].
    apply bool_decide_eq_true in Hc. split; [|done].
    by apply elem_of_elements, list_elem_of_In.
  - split.
    + intros Hnone c Hc. apply elem_of_elements, list_elem_of_In in Hc.
      pose proof (find_none _ _ Hnone c Hc) as Hf. simpl in Hf.
      apply bool_decide_eq_false in Hf. by apply dec_stable in Hf.
    + intros Hsub.
      destruct (find _ (elements (safes st))) as [c|] eqn:Hf; [|done].
      apply find_some in Hf as [Hin Hc]. apply bool_decide_eq_true in Hc.
      exfalso. apply Hc, Hsub. by apply elem_of_elements, list_elem_of_In.
Qed.

(** X7. In a state that is consistent with a layout of mines, the cell
    that [make_safe_move] returns is not a mine of the layout. *)
Theorem make_safe_move_is_safe (M : gset cell) (st : t) (c : cell) :
  consistent M st → make_safe_move st = Some c → c ∉ M.
Proof.
  intros (_ & Hs & _) Hc. unfold make_safe_move in Hc.
  apply find_some in Hc as [Hin _].
  apply list_elem_of_In, elem_of_elements in Hin. intros HM. by apply (Hs c).
Qed.

Lemma make_safe_move_is_safe_witness :
  let M : gset cell := {[(0, 2)]} in
  let st := AI 1 3 {[(0, 0)]} ∅ {[(0, 0); (0, 1)]} [] in
  consistent M st ∧ make_safe_move st = Some (0, 1) ∧ (0, 1) ∉ M.
Proof.
  cbv zeta.
  assert (Hc : consistent {[(0, 2)]}
                 (AI 1 3 {[(0, 0)]} ∅ {[(0, 0); (0, 1)]} [])).
  { split; [simpl; set_solver|]. split; [simpl; set_solver|].
    simpl. intros s Hs. by inversion Hs. }
  assert (Hm : make_safe_move (AI 1 3 {[(0, 0)]} ∅ {[(0, 0); (0, 1)]} [])
               = Some (0, 1)) by (vm_compute; reflexivity).
  split; [exact Hc|]. split; [exact Hm|].
  exact (make_safe_move_is_safe _ _ _ Hc Hm).
Defined.

(** ** The new sentences of a pass *)

Lemma infer_step_NoDup kb s1 s2 new :
  NoDup new → NoDup (infer_step kb s1 s2 new).
Proof.
  intros Hnd. unfold infer_step.
  destruct (Sentence.eqb s1 s2); [done|].
  case_bool_decide; [|done].
  destruct (contains kb _); simpl; [done|].
  destruct (contains new _) eqn:Hnew; simpl; [done|].
  case_bool_decide; [|done].
  apply NoDup_app. split; [done|]. split; [|apply NoDup_singleton].
  intros x Hx ->%list_elem_of_singleton.
  apply contains_not_elem_of in Hnew. done.
Qed.

Lemma infer_row_NoDup kb s1 l new :
  NoDup new → NoDup (foldl (λ new s2, infer_step kb s1 s2 new) new l).
Proof.
  revert new. induction l as [|s2 l IH]; intros new Hnew; [done|].
  simpl. by apply IH, infer_step_NoDup.
Qed.

Lemma infer_rows_NoDup kb l1 l2 new :
  NoDup new →
  NoDup (foldl (λ new s1, foldl (λ new s2, infer_step kb s1 s2 new) new l2)
               new l1).
Proof.
  revert new. induction l1 as [|s1 l1 IH]; intros new Hnew; [done|].
  simpl. by apply IH, infer_row_NoDup.
Qed.

Lemma infer_NoDup kb : NoDup (infer kb).
Proof. apply infer_rows_NoDup, NoDup_nil_2. Qed.

(** X8. The sentences that a pass infers are pairwise different, non-empty
    and absent from the knowledge base, and each one is the difference of
    two different sentences of the knowledge base, the cells of the
    second among the cells of the first. *)
Theorem inferred_sentences_are_new (kb : list Sentence.t) :
  NoDup (infer kb)
  ∧ ∀ x, x ∈ infer kb →
      (x ∉ kb) ∧ Sentence.cells x ≠ ∅
      ∧ ∃ A B, A ∈ kb ∧ B ∈ kb ∧ A ≠ B
               ∧ Sentence.cells B ⊆ Sentence.cells A
               ∧ x = Sentence.Sentence (Sentence.cells A ∖ Sentence.cells B)
                                       (Sentence.count A - Sentence.count B).
Proof.
  split; [apply infer_NoDup|]. intros x Hx.
  apply infer_sound in Hx as (A & B & HA & HB & -> & (Hne & Hsub & Hcells) & Hnew).
  split; [done|]. split; [done|]. by exists A, B.
Qed.

(** X9. The inference rule is sound: when every sentence of the knowledge
    base counts the mines of a layout among its cells, so does every
    sentence that a pass infers. *)
Theorem inferred_sentences_fit (M : gset cell) (kb : list Sentence.t) :
  (∀ s, s ∈ kb → fits M s) → ∀ x, x ∈ infer kb → fits M x.
Proof.
  intros Hkb x Hx.
  apply infer_sound in Hx as (A & B & HA & HB & -> & (_ & Hsub & _) & _).
  apply fits_resolvent; auto.
Qed.

Lemma inferred_sentences_fit_witness :
  let M : gset cell := {[(0, 0)]} in
  let A := Sentence.Sentence {[(0, 0); (0, 1); (0, 2)]} 1 in
  let B := Sentence.Sentence {[(0, 0); (0, 1)]} 1 in
  let C := Sentence.Sentence {[(0, 2)]} 0 in
  (∀ s, s ∈ [A; B] → fits M s) ∧ C ∈ infer [A; B] ∧ fits M C.
Proof.
  cbv zeta.
  assert (Hkb : ∀ s, s ∈ [Sentence.Sentence {[(0, 0); (0, 1); (0, 2)]} 1;
                           Sentence.Sentence {[(0, 0); (0, 1)]} 1] →
                     fits {[(0, 0)]} s).
  { intros s Hs.
    repeat (apply elem_of_cons in Hs as [-> | Hs]; [vm_compute; reflexivity|]).
    by inversion Hs. }
  assert (Hin : Sentence.Sentence {[(0, 2)]} 0
                ∈ infer [Sentence.Sentence {[(0, 0); (0, 1); (0, 2)]} 1;
                         Sentence.Sentence {[(0, 0); (0, 1)]} 1]).
  { assert (infer [Sentence.Sentence {[(0, 0); (0, 1); (0, 2)]} 1;
                   Sentence.Sentence {[(0, 0); (0, 1)]} 1]
            = [Sentence.Sentence {[(0, 2)]} 0]) as -> by (vm_compute; reflexivity).
    left. }
  split; [exact Hkb|]. split; [exact Hin|].
  exact (inferred_sentences_fit _ _ Hkb _ Hin).
Defined.

(** ** Sentences and a layout of mines *)

(** X10. A sentence never reports a cell both as safe and as a mine, and
    a sentence without cells reports nothing. *)
Theorem sentence_never_both (s : Sentence.t) :
  Sentence.known_safes s ## Sentence.known_mines s
  ∧ (Sentence.cells s = ∅ →
     Sentence.known_safes s = ∅ ∧ Sentence.known_mines s = ∅).
Proof.
  unfold Sentence.known_safes, Sentence.known_mines. split.
  - destruct (Z.eqb_spec (Sentence.count s) 0) as [H0 | H0]; [|set_solver].
    rewrite H0. simpl. rewrite andb_false_r. set_solver.
  - intros ->. destruct (_ =? 0), (_ && _); done.
Qed.

(** X11. What a sentence reports is true of every layout it fits: when
    the count is the number of mines among the cells, the cells it knows
    to be safe are not mines, the cells it knows to be mines are mines,
    and the count lies between 0 and the number of cells. *)
Theorem sentence_knowledge_sound (M : gset cell) (s : Sentence.t) :
  fits M s →
  Sentence.known_safes s ## M
  ∧ Sentence.known_mines s ⊆ M
  ∧ 0 ≤ Sentence.count s ≤ Z.of_nat (size (Sentence.cells s)).
Proof.
  intros Hs. split; [by apply fits_known_safes|].
  split; [by apply fits_known_mines | by apply (fits_bounds M)].
Qed.

Lemma sentence_knowledge_sound_witness :
  let M : gset cell := {[(0, 0); (0, 1)]} in
  let s := Sentence.Sentence {[(0, 0); (0, 1)]} 2 in
  fits M s ∧ Sentence.known_mines s = {[(0, 0); (0, 1)]}
  ∧ Sentence.known_mines s ⊆ M.
Proof.
  cbv zeta.
  assert (Hs : fits {[(0, 0); (0, 1)]} (Sentence.Sentence {[(0, 0); (0, 1)]} 2))
    by (vm_compute; reflexivity).
  split; [exact Hs|]. split; [vm_compute; reflexivity|].
  exact (proj1 (proj2 (sentence_knowledge_sound _ _ Hs))).
Defined.

(** X12. Marking a cell in a sentence removes it from the cells, changes
    nothing when the cell is not among them, and is idempotent;
    [mark_mine] lowers the count by one exactly when the cell was among
    the cells and [mark_safe] leaves the count alone. *)
Theorem sentence_mark_effect (c : cell) (s : Sentence.t) :
  Sentence.cells (Sentence.mark_mine c s) = Sentence.cells s ∖ {[c]}
  ∧ Sentence.cells (Sentence.mark_safe c s) = Sentence.cells s ∖ {[c]}
  ∧ Sentence.count (Sentence.mark_mine c s)
    = Sentence.count s - (if bool_decide (c ∈ Sentence.cells s) then 1 else 0)
  ∧ Sentence.count (Sentence.mark_safe c s) = Sentence.count s
  ∧ (c ∉ Sentence.cells s →
     Sentence.mark_mine c s = s ∧ Sentence.mark_safe c s = s)
  ∧ Sentence.mark_mine c (Sentence.mark_mine c s) = Sentence.mark_mine c s
  ∧ Sentence.mark_safe c (Sentence.mark_safe c s) = Sentence.mark_safe c s.
Proof.
  assert (Hnot : ∀ s', c ∉ Sentence.cells s' →
            Sentence.mark_mine c s' = s' ∧ Sentence.mark_safe c s' = s').
  { intros s' Hc. unfold Sentence.mark_mine, Sentence.mark_safe.
    by rewrite bool_decide_eq_false_2. }
  split_and!.
  - apply mark_mine_cells.
  - apply mark_safe_cells.
  - apply mark_mine_count.
  - apply mark_safe_count.
  - apply Hnot.
  - apply Hnot. rewrite mark_mine_cells. set_solver.
  - apply Hnot. rewrite mark_safe_cells. set_solver.
Qed.

(** X13. Marking keeps a sentence true: a sentence that fits a layout
    still fits it after [mark_mine] of a mine of the layout and after
    [mark_safe] of a cell that is not a mine of the layout. *)
Theorem sentence_mark_sound (M : gset cell) (c : cell) (s : Sentence.t) :
  fits M s →
  (c ∈ M → fits M (Sentence.mark_mine c s))
  ∧ (c ∉ M → fits M (Sentence.mark_safe c s)).
Proof.
  intros Hs. split; intros Hc; [by apply fits_mark_mine | by apply fits_mark_safe].
Qed.

Lemma sentence_mark_sound_witness :
  let M : gset cell := {[(0, 0)]} in
  let s := Sentence.Sentence {[(0, 0); (0, 1)]} 1 in
  fits M s ∧ (0, 0) ∈ M
  ∧ Sentence.mark_mine (0, 0) s = Sentence.Sentence {[(0, 1)]} 0
  ∧ fits M (Sentence.mark_mine (0, 0) s).
Proof.
  cbv zeta.
  assert (Hs : fits {[(0, 0)]} (Sentence.Sentence {[(0, 0); (0, 1)]} 1))
    by (vm_compute; reflexivity).
  assert (Hc : (0, 0) ∈ ({[(0, 0)]} : gset cell)) by set_solver.
  split; [exact Hs|]. split; [exact Hc|]. split; [vm_compute; reflexivity|].
  exact (proj1 (sentence_mark_sound _ (0, 0) _ Hs) Hc).
Defined.

(** ** Marking a cell that is already known *)

Lemma map_mark_absent (f : cell → Sentence.t → Sentence.t) c kb :
  (∀ s, c ∉ Sentence.cells s → f c s = s) →
  (∀ s, s ∈ kb → c ∉ Sentence.cells s) →
  map (f c) kb = kb.
Proof.
  intros Hf. induction kb as [|s kb IH]; intros Hkb; [done|].
  simpl. rewrite Hf by (apply Hkb; left). f_equal. apply IH.
  intros s' Hs'. apply Hkb. by right.
Qed.

(** X14. In a state where no sentence mentions a known cell, as in every
    state reached through the engine's methods, [mark_mine] of a cell
    that is already in [mines] and [mark_safe] of a cell that is already
    in [safes] change nothing. *)
Theorem mark_known_cell_is_noop (c : cell) (st : t) :
  apart st →
  (c ∈ mines st → mark_mine c st = st)
  ∧ (c ∈ safes st → mark_safe c st = st).
Proof.
  intros Hap. split; intros Hc.
  - unfold mark_mine. rewrite (map_mark_absent Sentence.mark_mine).
    + assert (mines st ∪ {[c]} = mines st) as -> by set_solver. by destruct st.
    + intros s Hs. unfold Sentence.mark_mine. by rewrite bool_decide_eq_false_2.
    + intros s Hs Hin. destruct (Hap s Hs) as [_ Hd]. by apply (Hd c).
  - unfold mark_safe. rewrite (map_mark_absent Sentence.mark_safe).
    + assert (safes st ∪ {[c]} = safes st) as -> by set_solver. by destruct st.
    + intros s Hs. unfold Sentence.mark_safe. by rewrite bool_decide_eq_false_2.
    + intros s Hs Hin. destruct (Hap s Hs) as [Hd _]. by apply (Hd c).
Qed.

Lemma mark_known_cell_is_noop_witness :
  let st := AI 3 3 ∅ {[(1, 0)]} ∅ [Sentence.Sentence {[(0, 0); (0, 1)]} 1] in
  apart st ∧ (1, 0) ∈ mines st ∧ mark_mine (1, 0) st = st.
Proof.
  cbv zeta.
  assert (Hap : apart (AI 3 3 ∅ {[(1, 0)]} ∅
                         [Sentence.Sentence {[(0, 0); (0, 1)]} 1])).
  { intros s Hs. simpl in *.
    apply list_elem_of_singleton in Hs as ->. simpl. split; set_solver. }
  assert (Hc : (1, 0) ∈ mines (AI 3 3 ∅ {[(1, 0)]} ∅
                                  [Sentence.Sentence {[(0, 0); (0, 1)]} 1]))
    by (simpl; set_solver).
  split; [exact Hap|]. split; [exact Hc|].
  exact (proj1 (mark_known_cell_is_noop (1, 0) _ Hap) Hc).
Defined.

(** ** Observations that settle all the neighbours *)

(** One pass records everything that the sentences of the knowledge base
    know. *)
Lemma pass_marks_known (st : t) (s : Sentence.t) :
  s ∈ knowledge st →
  Sentence.known_safes s ⊆ safes (pass st).1
  ∧ Sentence.known_mines s ⊆ mines (pass st).1.
Proof.
  intros Hs. destruct (pass_known st) as [-> ->]. rewrite settle_eq. simpl.
  split.
  - etrans; [by apply known_safes_in_collect | apply union_subseteq_r].
  - etrans; [by apply known_mines_in_collect | apply union_subseteq_r].
Qed.

Lemma update_knowledge_after_first_pass fuel st st' :
  update_knowledge fuel st = Some st' → grows (pass st).1 st'.
Proof.
  destruct fuel as [|fuel]; simpl; [done|].
  destruct (pass st).2.
  - apply grows_update_knowledge.
  - intros [= <-]. apply grows_refl.
Qed.

Lemma observe_has_sentence c count st :
  undetermined c st ≠ ∅ →
  Sentence.Sentence (undetermined c st) count ∈ knowledge (observe c count st).
Proof.
  intros Hne. rewrite observe_appends by done. apply elem_of_app. right. left.
Qed.

(** X15. An observation with count 0 makes every undetermined neighbour
    of the cell safe, and an observation whose count is the number of
    undetermined neighbours makes each of them a mine: already after the
    first pass of the propagation, and in the state that [add_knowledge]
    returns. *)
Theorem observation_settles_neighbours (c : cell) (st : t) :
  undetermined c st ⊆ safes (pass (observe c 0 st)).1
  ∧ (∀ fuel st', add_knowledge fuel c 0 st = Some st' →
                 undetermined c st ⊆ safes st')
  ∧ undetermined c st
      ⊆ mines (pass (observe c (Z.of_nat (size (undetermined c st))) st)).1
  ∧ (∀ fuel st',
       add_knowledge fuel c (Z.of_nat (size (undetermined c st))) st = Some st' →
       undetermined c st ⊆ mines st').
Proof.
  assert (Hsafe : undetermined c st ⊆ safes (pass (observe c 0 st)).1).
  { destruct (decide (undetermined c st = ∅)) as [-> | Hne]; [set_solver|].
    destruct (pass_marks_known _ _ (observe_has_sentence c 0 st Hne)) as [H _].
    exact H. }
  assert (Hmine : undetermined c st
            ⊆ mines (pass (observe c (Z.of_nat (size (undetermined c st))) st)).1).
  { destruct (decide (undetermined c st = ∅)) as [Hemp | Hne].
    { rewrite Hemp at 1. set_solver. }
    destruct (pass_marks_known _ _
                (observe_has_sentence c (Z.of_nat (size (undetermined c st))) st Hne))
      as [_ H].
    unfold Sentence.known_mines in H. simpl in H.
    rewrite Z.eqb_refl in H. simpl in H.
    assert (0 < size (undetermined c st))%nat.
    { apply Nat.neq_0_lt_0. intros Hz.
      apply Hne, leibniz_equiv, size_empty_iff. exact Hz. }
    rewrite (proj2 (Z.ltb_lt 0 _)) in H by lia. exact H. }
  split_and!; try done.
  - intros fuel st' Hu. unfold add_knowledge in Hu.
    apply update_knowledge_after_first_pass in Hu as (_ & Hs & _).
    intros x Hx. by apply Hs, Hsafe.
  - intros fuel st' Hu. unfold add_knowledge in Hu.
    apply update_knowledge_after_first_pass in Hu as (_ & _ & Hm).
    intros x Hx. by apply Hm, Hmine.
Qed.

(** ** Neighbours *)

(** X16. The neighbours that [add_knowledge] computes are exactly the
    cells of the board that differ from the cell by at most one row and
    one column, the cell itself excluded; between two cells of the board
    the relation is symmetric. *)
Theorem neighbors_spec (h w : Z) (c : cell) :
  (∀ x, x ∈ neighbors h w c ↔
        x ≠ c ∧ c.1 - 1 ≤ x.1 ≤ c.1 + 1 ∧ c.2 - 1 ≤ x.2 ≤ c.2 + 1
        ∧ 0 ≤ x.1 < h ∧ 0 ≤ x.2 < w)
  ∧ (c ∉ neighbors h w c)
  ∧ (∀ x, 0 ≤ c.1 < h → 0 ≤ c.2 < w →
          x ∈ neighbors h w c → c ∈ neighbors h w x).
Proof.
  split_and!.
  - intros x. apply elem_of_neighbors.
  - rewrite elem_of_neighbors. tauto.
  - intros x H1 H2. rewrite !elem_of_neighbors.
    intros (Hne & ? & ? & ? & ?). split; [congruence | lia].
Qed.

(** ** The count that the board reports *)

Lemma count_row (P : Z → bool) (cols : list Z) (n0 : Z) (body : Z → Z → Z) :
  (∀ j n, body j n = if P j then n + 1 else n) →
  foldl (λ n j, body j n) n0 cols
  = n0 + Z.of_nat (length (filter (λ j, P j = true) cols)).
Proof.
  intros Hbody. revert n0. induction cols as [|j cols IH]; intros n0.
  - simpl. lia.
  - cbn [foldl]. rewrite IH, Hbody. destruct (P j) eqn:HP.
    + rewrite filter_cons_True by done. simpl length. lia.
    + rewrite filter_cons_False by (rewrite HP; discriminate). lia.
Qed.

Lemma filter_pairs_row (P : Z → Z → bool) (i : Z) (cols : list Z) :
  filter (λ x : cell, P x.1 x.2 = true) (j ← cols; [(i, j)])
  = (λ j, (i, j)) <$> filter (λ j, P i j = true) cols.
Proof.
  induction cols as [|j cols IH]; [done|].
  rewrite bind_cons. simpl app. destruct (P i j) eqn:HP.
  - rewrite filter_cons_True by done.
    rewrite (filter_cons_True (λ j, P i j = true)) by done.
    by rewrite fmap_cons, IH.
  - rewrite filter_cons_False by (simpl; rewrite HP; discriminate).
    by rewrite (filter_cons_False (λ j, P i j = true)) by (rewrite HP; discriminate).
Qed.

Lemma count_rows (P : Z → Z → bool) (body : Z → Z → Z → Z)
    (rows cols : list Z) (n0 : Z) :
  (∀ i j n, body i j n = if P i j then n + 1 else n) →
  foldl (λ n i, foldl (λ n j, body i j n) n cols) n0 rows
  = n0 + Z.of_nat (length (filter (λ x : cell, P x.1 x.2 = true)
                             (i ← rows; j ← cols; [(i, j)]))).
Proof.
  intros Hbody. revert n0. induction rows as [|i rows IH]; intros n0.
  - simpl. lia.
  - cbn [foldl]. rewrite IH.
    rewrite (count_row (P i) cols n0 (body i)) by apply Hbody.
    rewrite bind_cons, filter_app, length_app, filter_pairs_row, length_fmap.
    lia.
Qed.

Lemma elem_of_block (c x : cell) :
  x ∈ block c ↔ c.1 - 1 ≤ x.1 ≤ c.1 + 1 ∧ c.2 - 1 ≤ x.2 ≤ c.2 + 1.
Proof.
  unfold block, range2. rewrite list_elem_of_bind. split.
  - intros (i & (j & Hx%list_elem_of_singleton & Hj)%list_elem_of_bind & Hi).
    apply elem_of_seqZ in Hi, Hj. subst x. simpl. lia.
  - destruct x as [i j]. simpl. intros [Hi Hj].
    exists i. split; [|apply elem_of_seqZ; lia].
    apply list_elem_of_bind. exists j. split; [left | apply elem_of_seqZ; lia].
Qed.

Lemma NoDup_block (c : cell) : NoDup (block c).
Proof.
  unfold block, range2. apply NoDup_bind; [| |apply NoDup_seqZ].
  - intros i1 i2 x _ _ (j1 & H1 & _)%list_elem_of_bind (j2 & H2 & _)%list_elem_of_bind.
    apply list_elem_of_singleton in H1, H2. congruence.
  - intros i _. apply NoDup_bind; [| |apply NoDup_seqZ].
    + intros j1 j2 x _ _ H1 H2. apply list_elem_of_singleton in H1, H2. congruence.
    + intros j _. apply NoDup_singleton.
Qed.

Lemma length_block (c : cell) : length (block c) = 9%nat.
Proof.
  unfold block, range2. rewrite length_pairs, !length_seqZ.
  replace (c.1 + 2 - (c.1 - 1)) with 3 by lia.
  replace (c.2 + 2 - (c.2 - 1)) with 3 by lia. reflexivity.
Qed.

Lemma nearby_mines_counted (g : Minesweeper.t) (c : cell) :
  Minesweeper.nearby_mines g c
  = Z.of_nat (length (filter (λ x : cell, counted g c x.1 x.2 = true) (block c))).
Proof.
  unfold Minesweeper.nearby_mines, block.
  rewrite (count_rows (counted g c)
             (λ i j count,
                if bool_decide ((i, j) = c) then count
                else if (0 <=? i) && (i <? Minesweeper.height g)
                        && (0 <=? j) && (j <? Minesweeper.width g)
                     then match Minesweeper.get (Minesweeper.board g) i j with
                          | Some true => count + 1
                          | _ => count
                          end
                     else count)).
  - lia.
  - intros i j n. unfold counted.
    destruct (bool_decide ((i, j) = c)); simpl; [done|].
    destruct ((0 <=? i) && (i <? Minesweeper.height g)
              && (0 <=? j) && (j <? Minesweeper.width g)); simpl; [|done].
    by destruct (Minesweeper.get (Minesweeper.board g) i j) as [[|]|].
Qed.

Lemma counted_iff (g : Minesweeper.t) (c x : cell) :
  board_ok (Minesweeper.height g) (Minesweeper.width g)
           (Minesweeper.mines g) (Minesweeper.board g) →
  x ∈ block c →
  counted g c x.1 x.2 = true
  ↔ x ∈ neighbors (Minesweeper.height g) (Minesweeper.width g) c
            ∩ Minesweeper.mines g.
Proof.
  intros [_ Hget] Hx. apply elem_of_block in Hx.
  rewrite elem_of_intersection, elem_of_neighbors. unfold counted.
  destruct x as [i j]. simpl in *.
  rewrite !andb_true_iff, negb_true_iff, bool_decide_eq_false,
    !Z.leb_le, !Z.ltb_lt.
  split.
  - intros [[Hne (((? & ?) & ?) & ?)] Hg].
    rewrite Hget in Hg by lia.
    destruct (bool_decide ((i, j) ∈ Minesweeper.mines g)) eqn:Hm; [|done].
    apply bool_decide_eq_true in Hm. repeat split; try done; lia.
  - intros [(Hne & ? & ? & ? & ?) Hm].
    rewrite Hget by lia. rewrite bool_decide_eq_true_2 by done.
    repeat split; try done; lia.
Qed.

Lemma nearby_mines_board_ok (g : Minesweeper.t) (c : cell) :
  board_ok (Minesweeper.height g) (Minesweeper.width g)
           (Minesweeper.mines g) (Minesweeper.board g) →
  Minesweeper.nearby_mines g c
  = Z.of_nat (size (neighbors (Minesweeper.height g) (Minesweeper.width g) c
                    ∩ Minesweeper.mines g))
  ∧ 0 ≤ Minesweeper.nearby_mines g c ≤ 8.
Proof.
  intros Hok. rewrite nearby_mines_counted.
  set (l := filter (λ x : cell, counted g c x.1 x.2 = true) (block c)).
  assert (Hnd : NoDup l) by apply NoDup_filter, NoDup_block.
  assert (Hset : (list_to_set l : gset cell)
                 = neighbors (Minesweeper.height g) (Minesweeper.width g) c
                   ∩ Minesweeper.mines g).
  { apply set_eq. intros x. unfold l.
    rewrite elem_of_list_to_set, list_elem_of_filter. split.
    - intros [Hc Hx]. by apply (counted_iff g c x Hok Hx).
    - intros Hx. assert (Hb : x ∈ block c).
      { apply elem_of_intersection in Hx as [Hx _].
        apply elem_of_neighbors in Hx. apply elem_of_block. lia. }
      split; [by apply (counted_iff g c x Hok Hb) | done]. }
  rewrite <- Hset, size_list_to_set by done. split; [done|].
  split; [lia|].
  assert (Hsub : l ⊆+ filter (λ x : cell, x ≠ c) (block c)).
  { apply NoDup_submseteq; [done|]. intros x. unfold l.
    rewrite !list_elem_of_filter. intros [Hc Hx]. split; [|done].
    intros ->. apply (counted_iff g c c Hok Hx) in Hc.
    apply elem_of_intersection in Hc as [Hc _].
    apply elem_of_neighbors in Hc. tauto. }
  apply submseteq_length in Hsub.
  assert (Hc : c ∈ block c) by (apply elem_of_block; lia).
  assert (Hlen : (length (filter (λ x : cell, x ≠ c) (block c)) < length (block c))%nat).
  { clear -Hc. induction (block c) as [|y l' IH]; [by inversion Hc|].
    destruct (decide (y = c)) as [-> | Hne].
    - rewrite filter_cons_False by (intros H; by apply H).
      pose proof (length_filter (λ x : cell, x ≠ c) l'). simpl. lia.
    - rewrite filter_cons_True by done. simpl.
      apply elem_of_cons in Hc as [-> | Hc]; [done|]. specialize (IH Hc). lia. }
  rewrite length_block in Hlen. lia.
Qed.

Lemma init_board_ok h w target tape g :
  Minesweeper.init h w target tape = Done g →
  Minesweeper.height g = h ∧ Minesweeper.width g = w
  ∧ board_ok h w (Minesweeper.mines g) (Minesweeper.board g).
Proof.
  intros Hg.
  assert (Hdims : Minesweeper.height g = h ∧ Minesweeper.width g = w).
  { unfold Minesweeper.init in Hg.
    destruct (Minesweeper.place h w target tape ∅ (Minesweeper.empty_board h w))
      as [[ms b]| |]; [|done|done].
    by injection Hg as <-. }
  apply init_done in Hg.
  apply place_done in Hg as [Hok _]; [|apply board_ok_empty].
  simpl in Hok. tauto.
Qed.

(** X17. On a board that the constructor returned, [nearby_mines] is the
    number of mines among the neighbours of the cell, as [add_knowledge]
    computes them, for every cell, on the board or not; it lies between 0
    and 8. *)
Theorem nearby_mines_counts_neighbours (h w target : Z) (tape : list (Z * Z))
    (g : Minesweeper.t) (c : cell) :
  Minesweeper.init h w target tape = Done g →
  Minesweeper.nearby_mines g c
  = Z.of_nat (size (neighbors h w c ∩ Minesweeper.mines g))
  ∧ 0 ≤ Minesweeper.nearby_mines g c ≤ 8.
Proof.
  intros (Hh & Hw & Hok)%init_board_ok.
  rewrite <- Hh, <- Hw in Hok |- *. by apply nearby_mines_board_ok.
Qed.

Lemma nearby_mines_counts_neighbours_witness :
  let g := Minesweeper.Game 3 3 {[(0, 1); (1, 0); (1, 1)]}
             [[false; true; false]; [true; true; false]; [false; false; false]] ∅ in
  Minesweeper.init 3 3 3 [(0, 1); (1, 0); (1, 1)] = Done g
  ∧ Minesweeper.nearby_mines g (0, 2)
    = Z.of_nat (size (neighbors 3 3 (0, 2) ∩ Minesweeper.mines g))
  ∧ 0 ≤ Minesweeper.nearby_mines g (0, 2) ≤ 8.
Proof.
  cbv zeta.
  assert (Hg : Minesweeper.init 3 3 3 [(0, 1); (1, 0); (1, 1)]
    = Done (Minesweeper.Game 3 3 {[(0, 1); (1, 0); (1, 1)]}
              [[false; true; false]; [true; true; false]; [false; false; false]] ∅))
    by (vm_compute; reflexivity).
  split; [exact Hg|].
  exact (nearby_mines_counts_neighbours 3 3 3 _ _ (0, 2) Hg).
Defined.

(** X18. A truthful observation keeps the engine right.  Take a board that
    the constructor returned, an engine of the same size whose state is
    consistent with the mines of the board, and a cell that is not a mine
    and has no neighbour among the known mines.  Recording the count that
    the board reports for the cell gives a state consistent with the
    board, before the propagation and in the state that [add_knowledge]
    returns: every known mine is a mine of the board and no known safe
    cell is. *)
Theorem truthful_observation_sound (h w target : Z) (tape : list (Z * Z))
    (g : Minesweeper.t) (c : cell) (st : t) :
  Minesweeper.init h w target tape = Done g →
  height st = h → width st = w →
  consistent (Minesweeper.mines g) st →
  c ∉ Minesweeper.mines g →
  neighbors h w c ## mines st →
  consistent (Minesweeper.mines g) (observe c (Minesweeper.nearby_mines g c) st)
  ∧ ∀ fuel st',
      add_knowledge fuel c (Minesweeper.nearby_mines g c) st = Some st' →
      consistent (Minesweeper.mines g) st'
      ∧ mines st' ⊆ Minesweeper.mines g
      ∧ safes st' ## Minesweeper.mines g.
Proof.
  intros Hg Hh Hw Hc Hnot Hnb.
  apply init_board_ok in Hg as (Hgh & Hgw & Hok).
  assert (Hobs : consistent (Minesweeper.mines g)
                   (observe c (Minesweeper.nearby_mines g c) st)).
  { apply consistent_observe; [done | | by rewrite Hh, Hw | done].
    rewrite <- Hgh, <- Hgw in Hok.
    destruct (nearby_mines_board_ok g c Hok) as [-> _].
    by rewrite Hh, Hw, Hgh, Hgw. }
  split; [exact Hobs|]. intros fuel st' Hu. unfold add_knowledge in Hu.
  pose proof (consistent_update_knowledge _ _ _ _ Hobs Hu) as Hc'.
  split; [exact Hc'|]. destruct Hc' as (Hm & Hs & _). done.
Qed.

Lemma truthful_observation_sound_witness :
  let g := Minesweeper.Game 3 3 {[(0, 1); (1, 0); (1, 1)]}
             [[false; true; false]; [true; true; false]; [false; false; false]] ∅ in
  Minesweeper.init 3 3 3 [(0, 1); (1, 0); (1, 1)] = Done g
  ∧ consistent (Minesweeper.mines g) (init 3 3)
  ∧ consistent (Minesweeper.mines g)
      (observe (0, 0) (Minesweeper.nearby_mines g (0, 0)) (init 3 3)).
Proof.
  cbv zeta.
  assert (Hg : Minesweeper.init 3 3 3 [(0, 1); (1, 0); (1, 1)]
    = Done (Minesweeper.Game 3 3 {[(0, 1); (1, 0); (1, 1)]}
              [[false; true; false]; [true; true; false]; [false; false; false]] ∅))
    by (vm_compute; reflexivity).
  assert (Hc : consistent {[(0, 1); (1, 0); (1, 1)]} (init 3 3))
    by apply consistent_init.
  split; [exact Hg|]. split; [exact Hc|].
  refine (proj1 (truthful_observation_sound 3 3 3 _ _ (0, 0) (init 3 3)
                   Hg eq_refl eq_refl Hc _ _)).
  - simpl. set_solver.
  - simpl. set_solver.
Defined.

(** ** The shape of the board and the errors of the constructor *)

Lemma board_shape_empty h w : board_shape h w (Minesweeper.empty_board h w).
Proof.
  unfold board_shape, Minesweeper.empty_board, range. split.
  - by rewrite length_map, length_seqZ.
  - apply Forall_forall. intros row (i & -> & _)%elem_of_map.
    by rewrite length_map, length_seqZ.
Qed.

Lemma board_shape_set_true h w b i j :
  board_shape h w b → board_shape h w (Minesweeper.set_true b i j).
Proof.
  intros [Hlen Hrows]. unfold Minesweeper.set_true.
  destruct (b !! Z.to_nat i) as [row|] eqn:Hrow; [|done]. split.
  - by rewrite length_insert.
  - apply Forall_insert; [done|]. rewrite length_insert.
    by apply (Forall_lookup_1 _ _ _ _ Hrows Hrow).
Qed.

Lemma place_shape h w target tape :
  ∀ ms b r, board_shape h w b →
    Minesweeper.place h w target tape ms b = Done r → board_shape h w r.2.
Proof.
  induction tape as [|[ri rj] tape IH]; intros ms b r Hsh; rewrite place_eq.
  - destruct (_ =? _); [by intros [= <-] | done].
  - destruct (_ =? _); [by intros [= <-]|].
    destruct (randrange ri h) as [i|]; [|done].
    destruct (randrange rj w) as [j|]; [|done].
    destruct (Minesweeper.get b i j) as [[|]|]; [by apply IH | | done].
    apply IH. by apply board_shape_set_true.
Qed.

Lemma init_shape h w target tape g :
  Minesweeper.init h w target tape = Done g →
  board_shape h w (Minesweeper.board g).
Proof.
  intros Hg%init_done.
  apply place_shape in Hg; [exact Hg | apply board_shape_empty].
Qed.

(** X19. The field of a board that the constructor returned has
    [height] rows of [width] entries each (none when the dimension is not
    positive). *)
Theorem init_board_shape (h w target : Z) (tape : list (Z * Z))
    (g : Minesweeper.t) :
  Minesweeper.init h w target tape = Done g →
  length (Minesweeper.board g) = Z.to_nat h
  ∧ Forall (λ row, length row = Z.to_nat w) (Minesweeper.board g).
Proof.
  apply init_shape.
Qed.

Lemma init_board_shape_witness :
  let g := Minesweeper.Game 2 3 {[(1, 2)]}
             [[false; false; false]; [false; false; true]] ∅ in
  Minesweeper.init 2 3 1 [(1, 2)] = Done g
  ∧ length (Minesweeper.board g) = Z.to_nat 2
  ∧ Forall (λ row, length row = Z.to_nat 3) (Minesweeper.board g).
Proof.
  cbv zeta.
  assert (Hg : Minesweeper.init 2 3 1 [(1, 2)]
    = Done (Minesweeper.Game 2 3 {[(1, 2)]}
              [[false; false; false]; [false; false; true]] ∅))
    by (vm_compute; reflexivity).
  split; [exact Hg|].
  exact (init_board_shape 2 3 1 _ _ Hg).
Defined.

Lemma place_never_raises h w target tape :
  0 < h → 0 < w →
  ∀ ms b, board_ok h w ms b → Minesweeper.place h w target tape ms b ≠ Raised.
Proof.
  intros Hh Hw. induction tape as [|[ri rj] tape IH]; intros ms b Hok;
    rewrite place_eq.
  - by destruct (_ =? _).
  - destruct (_ =? _); [done|].
    rewrite !randrange_pos by done.
    pose proof (Z.mod_pos_bound ri h Hh). pose proof (Z.mod_pos_bound rj w Hw).
    destruct Hok as [Hin Hget]. rewrite Hget by done.
    destruct (bool_decide _); [by apply IH|].
    apply IH. by apply board_ok_set_true.
Qed.

(** X20. The errors of the constructor.  With positive height and width
    it never raises, whatever the random draws.  With a height or a width
    that is not positive and a number of mines other than 0, the first
    draw raises ([randrange] of an empty range).  With 0 mines it returns
    the field without mines at once, whatever the dimensions. *)
Theorem init_errors (h w target : Z) :
  (0 < h → 0 < w → ∀ tape, Minesweeper.init h w target tape ≠ Raised)
  ∧ (h ≤ 0 ∨ w ≤ 0 → target ≠ 0 →
     ∀ r tape, Minesweeper.init h w target (r :: tape) = Raised)
  ∧ (∀ tape, Minesweeper.init h w 0 tape
             = Done (Minesweeper.Game h w ∅ (Minesweeper.empty_board h w) ∅)).
Proof.
  split_and!.
  - intros Hh Hw tape. unfold Minesweeper.init.
    pose proof (place_never_raises h w target tape Hh Hw ∅
                  (Minesweeper.empty_board h w) (board_ok_empty h w)) as Hp.
    by destruct (Minesweeper.place h w target tape ∅ (Minesweeper.empty_board h w))
      as [[ms b]| |].
  - intros Hdim Hne [ri rj] tape. unfold Minesweeper.init. rewrite place_eq.
    rewrite size_empty. rewrite (proj2 (Z.eqb_neq _ _)) by (simpl; lia).
    unfold randrange.
    destruct (Z.ltb_spec 0 h) as [Hh|]; [|done].
    destruct (Z.ltb_spec 0 w) as [Hw|]; [lia | done].
  - intros tape. unfold Minesweeper.init. rewrite place_eq.
    by rewrite size_empty.
Qed.

(** ** [is_mine] and the bounds of the board *)

Lemma getitem_None {A : Type} (l : list A) (i : Z) :
  getitem l i = None ↔ ¬ (- Z.of_nat (length l) ≤ i < Z.of_nat (length l)).
Proof.
  unfold getitem. destruct (Z.leb_spec 0 i).
  - rewrite lookup_ge_None. lia.
  - destruct (Z.leb_spec 0 (Z.of_nat (length l) + i)).
    + rewrite lookup_ge_None. lia.
    + split; [lia | done].
Qed.

Lemma getitem_negative {A : Type} (l : list A) (i : Z) :
  - Z.of_nat (length l) ≤ i < 0 → getitem l i = getitem l (Z.of_nat (length l) + i).
Proof.
  intros Hi. unfold getitem.
  rewrite (proj2 (Z.leb_gt 0 i)) by lia.
  by rewrite !(proj2 (Z.leb_le 0 (Z.of_nat (length l) + i))) by lia.
Qed.

Lemma getitem_wrap {A : Type} (l : list A) (i : Z) :
  0 ≤ i < Z.of_nat (length l) →
  getitem l (i - Z.of_nat (length l)) = getitem l i.
Proof.
  intros Hi. rewrite getitem_negative by lia. f_equal. lia.
Qed.

Lemma getitem_Some_elem {A : Type} (l : list A) (i : Z) (x : A) :
  getitem l i = Some x → x ∈ l.
Proof.
  unfold getitem. repeat case_match; try done;
    intros Hx; apply list_elem_of_lookup; eauto.
Qed.

(** X21. [is_mine] on a board that the constructor returned.  For a cell
    of the board it tells whether the cell is in [mines].  It checks no
    bounds: a negative row or column index counts from the end, so the
    cells [(i - height, j)], [(i, j - width)] and [(i - height, j - width)]
    answer as [(i, j)], and the call fails (an [IndexError]) exactly when
    the row is outside [-height .. height - 1] or the column is outside
    [-width .. width - 1]. *)
Theorem is_mine_bounds (h w target : Z) (tape : list (Z * Z))
    (g : Minesweeper.t) :
  Minesweeper.init h w target tape = Done g →
  (∀ i j, 0 ≤ i < h → 0 ≤ j < w →
     Minesweeper.is_mine g (i, j)
     = Some (bool_decide ((i, j) ∈ Minesweeper.mines g))
     ∧ Minesweeper.is_mine g (i - h, j) = Minesweeper.is_mine g (i, j)
     ∧ Minesweeper.is_mine g (i, j - w) = Minesweeper.is_mine g (i, j)
     ∧ Minesweeper.is_mine g (i - h, j - w) = Minesweeper.is_mine g (i, j))
  ∧ ∀ i j, Minesweeper.is_mine g (i, j) = None
           ↔ ¬ (- h ≤ i < h ∧ - w ≤ j < w).
Proof.
  intros Hg. destruct (init_shape h w target tape g Hg) as [Hlen Hrows].
  apply init_board_ok in Hg as (_ & _ & [_ Hget]).
  unfold Minesweeper.is_mine, Minesweeper.get. simpl.
  assert (Hrow : ∀ i row, getitem (Minesweeper.board g) i = Some row →
            Z.of_nat (length row) = Z.max 0 w).
  { intros i row Hr%getitem_Some_elem.
    rewrite (proj1 (Forall_forall _ _) Hrows row Hr). lia. }
  split.
  - intros i j Hi Hj.
    assert (Hwrap : getitem (Minesweeper.board g) (i - h)
                    = getitem (Minesweeper.board g) i).
    { replace h with (Z.of_nat (length (Minesweeper.board g))) at 1 by lia.
      apply getitem_wrap. lia. }
    pose proof (Hget i j Hi Hj) as Hij. unfold Minesweeper.get in Hij.
    rewrite Hwrap.
    destruct (getitem (Minesweeper.board g) i) as [row|] eqn:Hr; [|done].
    simpl in *. pose proof (Hrow i row Hr) as Hl.
    assert (Hwrapj : getitem row (j - w) = getitem row j).
    { replace w with (Z.of_nat (length row)) at 1 by lia.
      apply getitem_wrap. lia. }
    by rewrite Hwrapj.
  - intros i j.
    destruct (getitem (Minesweeper.board g) i) as [row|] eqn:Hr; simpl.
    + pose proof (Hrow i row Hr) as Hl.
      assert (Hi : - Z.of_nat (length (Minesweeper.board g)) ≤ i
                   < Z.of_nat (length (Minesweeper.board g))).
      { destruct (decide (- Z.of_nat (length (Minesweeper.board g)) ≤ i
                          < Z.of_nat (length (Minesweeper.board g)))); [done|].
        apply getitem_None in n. congruence. }
      rewrite getitem_None. lia.
    + apply getitem_None in Hr. split; [|done]. lia.
Qed.

Lemma is_mine_bounds_witness :
  let g := Minesweeper.Game 2 3 {[(1, 2)]}
             [[false; false; false]; [false; false; true]] ∅ in
  Minesweeper.init 2 3 1 [(1, 2)] = Done g
  ∧ Minesweeper.is_mine g (-1, -1) = Some true
  ∧ Minesweeper.is_mine g (2, 0) = None
  ∧ ∀ i j, Minesweeper.is_mine g (i, j) = None ↔ ¬ (- 2 ≤ i < 2 ∧ - 3 ≤ j < 3).
Proof.
  cbv zeta.
  assert (Hg : Minesweeper.init 2 3 1 [(1, 2)]
    = Done (Minesweeper.Game 2 3 {[(1, 2)]}
              [[false; false; false]; [false; false; true]] ∅))
    by (vm_compute; reflexivity).
  split; [exact Hg|]. split; [vm_compute; reflexivity|].
  split; [vm_compute; reflexivity|].
  exact (proj2 (is_mine_bounds 2 3 1 _ _ Hg)).
Defined.

(** X22. A board that the constructor returned has no mine found yet, and
    [won] holds on it exactly when it was built with 0 mines. *)
Theorem init_won (h w target : Z) (tape : list (Z * Z)) (g : Minesweeper.t) :
  Minesweeper.init h w target tape = Done g →
  Minesweeper.mines_found g = ∅
  ∧ (Minesweeper.won g = true ↔ target = 0).
Proof.
  intros Hg.
  assert (Hfound : Minesweeper.mines_found g = ∅).
  { unfold Minesweeper.init in Hg.
    destruct (Minesweeper.place h w target tape ∅ (Minesweeper.empty_board h w))
      as [[ms b]| |]; [|done|done].
    by injection Hg as <-. }
  apply init_done in Hg. apply place_done in Hg as [_ Hsz]; [|apply board_ok_empty].
  simpl in Hsz. split; [done|].
  unfold Minesweeper.won. rewrite bool_decide_eq_true, Hfound. split.
  - intros Heq. rewrite <- Heq, size_empty in Hsz. lia.
  - intros ->. symmetry. apply leibniz_equiv, size_empty_iff. lia.
Qed.

Lemma init_won_witness :
  let g := Minesweeper.Game 2 3 {[(1, 2)]}
             [[false; false; false]; [false; false; true]] ∅ in
  Minesweeper.init 2 3 1 [(1, 2)] = Done g
  ∧ Minesweeper.mines_found g = ∅
  ∧ (Minesweeper.won g = true ↔ 1 = 0).
Proof.
  cbv zeta.
  assert (Hg : Minesweeper.init 2 3 1 [(1, 2)]
    = Done (Minesweeper.Game 2 3 {[(1, 2)]}
              [[false; false; false]; [false; false; true]] ∅))
    by (vm_compute; reflexivity).
  split; [exact Hg|].
  exact (init_won 2 3 1 _ _ Hg).
Defined.

(** ** What the engine leaves alone *)

(** X23. When every neighbour of the cell is already known safe or known
    to be a mine, [add_knowledge] ignores the count: it appends no
    sentence, and any two counts give the same state before the
    propagation and the same result. *)
Theorem determined_observation_ignores_count (c : cell) (st : t) :
  undetermined c st = ∅ →
  ∀ count count',
    knowledge (observe c count st) = map (Sentence.mark_safe c) (knowledge st)
    ∧ observe c count st = observe c count' st
    ∧ ∀ fuel, add_knowledge fuel c count st = add_knowledge fuel c count' st.
Proof.
  intros Hund count count'.
  assert (Heq : ∀ n, observe c n st =
            AI (height st) (width st) (moves_made st ∪ {[c]}) (mines st)
               (safes st ∪ {[c]}) (map (Sentence.mark_safe c) (knowledge st))).
  { intros n. rewrite observe_eq, Hund.
    rewrite bool_decide_eq_false_2 by (intros H; by apply H).
    by rewrite app_nil_r. }
  split_and!.
  - by rewrite Heq.
  - by rewrite !Heq.
  - intros fuel. unfold add_knowledge. by rewrite !Heq.
Qed.

Lemma determined_observation_ignores_count_witness :
  let st := AI 1 2 ∅ {[(0, 1)]} ∅ [] in
  undetermined (0, 0) st = ∅
  ∧ add_knowledge 1 (0, 0) 0 st = add_knowledge 1 (0, 0) 1 st.
Proof.
  cbv zeta.
  assert (Hu : undetermined (0, 0) (AI 1 2 ∅ {[(0, 1)]} ∅ []) = ∅)
    by (vm_compute; reflexivity).
  split; [exact Hu|].
  exact (proj2 (proj2 (determined_observation_ignores_count (0, 0) _ Hu 0 1)) 1%nat).
Defined.





Lemma confined_pass U S0 M0 st :
  bounded U st ∧ safes st ⊆ S0 ∪ U ∧ mines st ⊆ M0 ∪ U →
  bounded U (pass st).1 ∧ safes (pass st).1 ⊆ S0 ∪ U ∧ mines (pass st).1 ⊆ M0 ∪ U.
Proof.
  intros (Hb & Hs & Hm).
  apply (pass_ind (λ st', bounded U st' ∧ safes st' ⊆ S0 ∪ U ∧ mines st' ⊆ M0 ∪ U));
    [done | ..].
  - intros c st' (s & Hin & Hc)%elem_of_collect_safes _ (Hb' & Hs' & Hm').
    assert (c ∈ U) by (eapply Hb; [exact Hin | by apply known_safes_subseteq]).
    split; [by apply bounded_mark_safe|]. simpl. split; [set_solver | done].
  - intros c st' (s & Hin & Hc)%elem_of_collect_mines _ (Hb' & Hs' & Hm').
    assert (c ∈ U) by (eapply Hb; [exact Hin | by apply known_mines_subseteq]).
    split; [by apply bounded_mark_mine|]. simpl. split; [done | set_solver].
  - intros st' (Hb' & Hs' & Hm'). split; [by apply bounded_drop_empty | done].
  - intros st' (Hb' & Hs' & Hm'). split; [by apply bounded_infer | done].
Qed.

(** X25. [update_knowledge] only learns about cells that the knowledge
    base mentions: every cell of [safes] or [mines] of the state it
    returns was there before or occurs in a sentence of the knowledge base
    it started from, and so does every cell of the sentences it
    returns. *)
Theorem update_knowledge_confined (fuel : nat) (st st' : t) :
  update_knowledge fuel st = Some st' →
  safes st' ⊆ safes st ∪ universe st
  ∧ mines st' ⊆ mines st ∪ universe st
  ∧ ∀ s, s ∈ knowledge st' → Sentence.cells s ⊆ universe st.
Proof.
  intros Hu.
  assert (H : bounded (universe st) st' ∧ safes st' ⊆ safes st ∪ universe st
              ∧ mines st' ⊆ mines st ∪ universe st).
  { apply (update_knowledge_ind
             (λ st', bounded (universe st) st' ∧ safes st' ⊆ safes st ∪ universe st
                     ∧ mines st' ⊆ mines st ∪ universe st) fuel st st');
      [apply confined_pass | | exact Hu].
    split; [apply bounded_universe|]. split; apply union_subseteq_l. }
  destruct H as (Hb & Hs & Hm). done.
Qed.

Lemma update_knowledge_confined_witness :
  let A := Sentence.Sentence {[(0, 0); (0, 1); (0, 2)]} 1 in
  let B := Sentence.Sentence {[(0, 0); (0, 1)]} 1 in
  let st := AI 3 3 ∅ ∅ ∅ [A; B] in
  let st' := AI 3 3 ∅ ∅ {[(0, 2)]} [B; B] in
  update_knowledge 3 st = Some st'
  ∧ safes st' ⊆ safes st ∪ universe st.
Proof.
  cbv zeta.
  assert (Hu : update_knowledge 3
    (AI 3 3 ∅ ∅ ∅ [Sentence.Sentence {[(0, 0); (0, 1); (0, 2)]} 1;
                   Sentence.Sentence {[(0, 0); (0, 1)]} 1])
    = Some (AI 3 3 ∅ ∅ {[(0, 2)]}
              [Sentence.Sentence {[(0, 0); (0, 1)]} 1;
               Sentence.Sentence {[(0, 0); (0, 1)]} 1]))
    by (vm_compute; reflexivity).
  split; [exact Hu|].
  exact (proj1 (update_knowledge_confined 3 _ _ Hu)).
Defined.
